(** * QuickBase MCP server: access policy, payload limits and the
      relationship orchestrator

    A shallow embedding of
    - [src/utils/env.ts]        ([envFlag]),
    - [src/utils/toolGuards.ts] ([assertToolAllowed] and its three tool sets),
    - [src/tools/index.ts]      ([validateFieldPayload], the [confirm] literal
                                 of the argument schemas),
    - [src/index.ts]            (the tool-call handler: guard, argument
                                 parsing, client call),
    and of the relationship orchestrator of [src/quickbase/client.ts]
    (relationship builder, junction table builder, integrity validator),
    which is not among the sources and is modelled from the
    specification. *)

From Stdlib Require Import ZArith Lia Ascii String.
From stdpp Require Import gmap strings list pretty.

Local Open Scope Z_scope.

(** ** JavaScript values *)

Module JS.

(** The values a tool argument bundle or a field payload can hold.  A
    string is the sequence of its code units, of which the embedding covers
    those below 256, one [ascii] each.  An object is the ordered list of
    its own enumerable string keys ([Object.keys]) with their values.
    [VNumber] carries an integer: no function below inspects a number
    beyond [typeof].  [VOther] stands for the remaining [typeof] results
    ("bigint", "symbol", "function"). *)
#[local] Unset Elimination Schemes.
Inductive Value : Type :=
| VNull
| VUndefined
| VString (s : string)
| VNumber (n : Z)
| VBool (b : bool)
| VArray (items : list Value)
| VObject (props : list (string * Value))
| VOther (typeofName : string).
#[local] Set Elimination Schemes.

(** [obj[k]]: the value stored under key [k], [undefined] when absent. *)
Fixpoint getProp (k : string) (props : list (string * Value)) : Value :=
  match props with
  | [] => VUndefined
  | (k', v) :: rest => if String.eqb k k' then v else getProp k rest
  end.

(** [s.length] *)
Definition strlen (s : string) : Z := Z.of_nat (String.length s).

End JS.

(** ** Environment flags ([src/utils/env.ts]) *)

Module Env.

(** White space and line terminators removed by [String.prototype.trim]. *)
Definition isWhiteSpace (c : ascii) : bool :=
  let n := nat_of_ascii c in
  existsb (Nat.eqb n) [9; 10; 11; 12; 13; 32; 160]%nat.

Fixpoint trimStart (s : string) : string :=
  match s with
  | EmptyString => EmptyString
  | String c rest => if isWhiteSpace c then trimStart rest else s
  end.

Definition trimEnd (s : string) : string :=
  String.rev (trimStart (String.rev s)).

Definition trim (s : string) : string := trimEnd (trimStart s).

(** [toLowerCase] on one code unit: A-Z, and the Latin-1 capitals
    U+00C0-U+00DE except the multiplication sign U+00D7. *)
Definition lowerChar (c : ascii) : ascii :=
  let n := nat_of_ascii c in
  if ((65 <=? n) && (n <=? 90))%nat then ascii_of_nat (n + 32)
  else if ((192 <=? n) && (n <=? 222) && negb (n =? 215))%nat
       then ascii_of_nat (n + 32)
       else c.

Fixpoint toLowerCase (s : string) : string :=
  match s with
  | EmptyString => EmptyString
  | String c rest => String (lowerChar c) (toLowerCase rest)
  end.

Definition TRUE_VALUES : gset string := {[ "1"; "true"; "yes"; "y"; "on" ]}.
Definition FALSE_VALUES : gset string := {[ "0"; "false"; "no"; "n"; "off" ]}.

(** [String(raw).trim().toLowerCase()] *)
Definition normalize (raw : string) : string := toLowerCase (trim raw).

(** [process.env] maps a variable name to its value; an unset variable
    reads as [undefined]. *)
Definition envFlag (env : gmap string string) (name : string)
           (defaultValue : bool) : bool :=
  match env !! name with
  | None => defaultValue
  | Some raw =>
      let normalized := normalize raw in
      if (JS.strlen normalized =? 0) then defaultValue
      else if bool_decide (normalized ∈ TRUE_VALUES) then true
      else if bool_decide (normalized ∈ FALSE_VALUES) then false
      else defaultValue
  end.

End Env.

(** ** The access-policy guard ([src/utils/toolGuards.ts]) *)

Module ToolGuards.
Import JS.

Definition destructiveTools : gset string :=
  {[ "quickbase_delete_table";
     "quickbase_delete_field";
     "quickbase_delete_record" ]}.

Definition readOnlyAllowedTools : gset string :=
  {[ "quickbase_get_app_info";
     "quickbase_get_tables";
     "quickbase_test_connection";
     "quickbase_get_table_info";
     "quickbase_get_table_fields";
     "quickbase_query_records";
     "quickbase_get_record";
     "quickbase_search_records";
     "quickbase_get_relationships";
     "quickbase_get_reports";
     "quickbase_run_report" ]}.

Definition confirmationRequiredTools : gset string :=
  {[ "quickbase_create_table";
     "quickbase_create_field";
     "quickbase_update_field";
     "quickbase_create_record";
     "quickbase_update_record";
     "quickbase_bulk_create_records";
     "quickbase_create_relationship" ]}.

(** The three [McpError]s the guard throws, told apart by their message;
    each message quotes the tool name. *)
Inductive GuardError : Type :=
| ReadOnlyMode (name : string)
| DestructiveDisabled (name : string)
| ConfirmationRequired (name : string).

(** [typeof args === 'object' && args !== null && args.confirm === true].
    An array is an object without a [confirm] property. *)
Definition confirmed (args : Value) : bool :=
  match args with
  | VObject props =>
      match getProp "confirm" props with
      | VBool true => true
      | _ => false
      end
  | _ => false
  end.

(** [None]: the guard returns; [Some e]: it throws [e]. *)
Definition assertToolAllowed (name : string) (args : Value)
           (readOnly allowDestructive : bool) : option GuardError :=
  if readOnly && negb (bool_decide (name ∈ readOnlyAllowedTools))
  then Some (ReadOnlyMode name)
  else if bool_decide (name ∈ destructiveTools) && negb allowDestructive
  then Some (DestructiveDisabled name)
  else if bool_decide (name ∈ confirmationRequiredTools) && negb (confirmed args)
  then Some (ConfirmationRequired name)
  else None.

End ToolGuards.

(** ** The request shape validator ([src/tools/index.ts]) *)

Module Payload.
Import JS.

Definition maxDepth : Z := 4.
Definition maxKeysPerObject : Z := 250.
Definition maxTotalKeys : Z := 2000.
Definition maxStringLength : Z := 10000.
Definition maxArrayLength : Z := 1000.
Definition maxKeyLength : Z := 64.

(** The messages passed to [ctx.addIssue]. *)
Inductive Issue : Type :=
| NestingTooDeep
| StringTooLong
| ArrayTooLarge
| TooManyKeys
| TooManyKeysOverall
| KeyTooLong
| UnsupportedType (typeofName : string).

(** What [visit] mutates: the closure variable [totalKeys] and the issues
    collected by the refinement context. *)
Record VisitState : Type := mkVisit {
  totalKeys : Z;
  issues : list Issue
}.

Definition addIssue (i : Issue) (st : VisitState) : VisitState :=
  mkVisit (totalKeys st) (issues st ++ [i]).

Definition lenZ {A} (l : list A) : Z := Z.of_nat (length l).

Fixpoint visit (value : Value) (depth : Z) (st : VisitState) : VisitState :=
  if maxDepth <? depth then addIssue NestingTooDeep st
  else
    match value with
    | VNull | VUndefined => st
    | VString s =>
        if maxStringLength <? strlen s then addIssue StringTooLong st else st
    | VNumber _ | VBool _ => st
    | VArray items =>
        if maxArrayLength <? lenZ items then addIssue ArrayTooLarge st
        else
          (fix each (l : list Value) (st : VisitState) : VisitState :=
             match l with
             | [] => st
             | item :: rest => each rest (visit item (depth + 1) st)
             end) items st
    | VObject props =>
        if maxKeysPerObject <? lenZ props then addIssue TooManyKeys st
        else
          let st := mkVisit (totalKeys st + lenZ props) (issues st) in
          if maxTotalKeys <? totalKeys st then addIssue TooManyKeysOverall st
          else
            (fix each (l : list (string * Value)) (st : VisitState)
               : VisitState :=
               match l with
               | [] => st
               | (k, v) :: rest =>
                   if maxKeyLength <? strlen k then addIssue KeyTooLong st
                   else each rest (visit v (depth + 1) st)
               end) props st
    | VOther t => addIssue (UnsupportedType t) st
    end.

(** [validateFieldPayload(payload, ctx)]: the issues added to a fresh
    context. *)
Definition validateFieldPayload (payload : Value) : list Issue :=
  issues (visit payload 0 (mkVisit 0 [])).

(** [z.record(z.any())] of the zod library, on an object: the parse
    builds a new object, copying the properties of the input in their
    order, each value as it is, except that a property named [__proto__]
    is left out.  What is not an object fails this parse before any
    refinement runs. *)
Definition recordOutput (v : Value) : Value :=
  match v with
  | VObject props =>
      VObject (List.filter (fun kv => negb (String.eqb (fst kv) "__proto__"))
                 props)
  | _ => v
  end.

(** [z.record(z.any()).superRefine((v, ctx) => validateFieldPayload(v, ctx))]:
    the refinement is given the output of the record parse; the parse of
    the member fails when an issue was added and otherwise yields that
    output, which is what the handler hands to the client
    ([createRecordArgs.fields]). *)
Definition parseFields (fields : Value) : Value + list Issue :=
  let output := recordOutput fields in
  match validateFieldPayload output with
  | [] => inl output
  | found => inr found
  end.

(** *** The limits, stated on the payload as a whole *)

(** Every value of the payload: the payload itself, the items of its
    arrays and the property values of its objects, at any depth. *)
Fixpoint nodes (v : Value) : list Value :=
  v :: match v with
       | VArray items => concat (map nodes items)
       | VObject props => concat (map (fun kv => nodes (snd kv)) props)
       | _ => []
       end.

(** The depth of the deepest value of the payload; the payload itself is
    at depth 0, an array item or a property value one level below its
    container. *)
Fixpoint nestingDepth (v : Value) : Z :=
  match v with
  | VArray items =>
      fold_right (fun x acc => Z.max (1 + nestingDepth x) acc) 0 items
  | VObject props =>
      fold_right (fun kv acc => Z.max (1 + nestingDepth (snd kv)) acc) 0 props
  | _ => 0
  end.

(** The number of keys of one value, and of all objects of the payload. *)
Definition ownKeys (v : Value) : Z :=
  match v with
  | VObject props => lenZ props
  | _ => 0
  end.

Definition keyCount (v : Value) : Z :=
  fold_right (fun n acc => ownKeys n + acc) 0 (nodes v).

(** The limits that concern one value alone. *)
Definition nodeWithinLimits (v : Value) : Prop :=
  match v with
  | VNull | VUndefined | VNumber _ | VBool _ => True
  | VString s => strlen s <= maxStringLength
  | VArray items => lenZ items <= maxArrayLength
  | VObject props =>
      lenZ props <= maxKeysPerObject
      /\ Forall (fun kv => strlen (fst kv) <= maxKeyLength) props
  | VOther _ => False
  end.

Definition withinLimits (payload : Value) : Prop :=
  nestingDepth payload <= maxDepth
  /\ keyCount payload <= maxTotalKeys
  /\ Forall nodeWithinLimits (nodes payload).





(** The same limits for a value sitting at [depth], without the total key
    count. *)
Fixpoint fits (depth : Z) (v : Value) : bool :=
  (depth <=? maxDepth) &&
  match v with
  | VNull | VUndefined | VNumber _ | VBool _ => true
  | VString s => strlen s <=? maxStringLength
  | VArray items =>
      (lenZ items <=? maxArrayLength) && forallb (fits (depth + 1)) items
  | VObject props =>
      (lenZ props <=? maxKeysPerObject)
      && forallb (fun kv => (strlen (fst kv) <=? maxKeyLength)
                            && fits (depth + 1) (snd kv)) props
  | VOther _ => false
  end.

(** The two loops of [visit]. *)
Fixpoint visitItems (depth : Z) (l : list Value) (st : VisitState)
  : VisitState :=
  match l with
  | [] => st
  | item :: rest => visitItems depth rest (visit item (depth + 1) st)
  end.

Fixpoint visitProps (depth : Z) (l : list (string * Value)) (st : VisitState)
  : VisitState :=
  match l with
  | [] => st
  | (k, v) :: rest =>
      if maxKeyLength <? strlen k then addIssue KeyTooLong st
      else visitProps depth rest (visit v (depth + 1) st)
  end.

(** *** How one visit changes the state *)

(** [grows st st']: [st'] holds the issues of [st] and possibly more. *)
Definition grows (st st' : VisitState) : Prop :=
  ∃ more, issues st' = issues st ++ more.

(** [flagged st st']: at least one issue was added. *)
Definition flagged (st st' : VisitState) : Prop :=
  ∃ i more, issues st' = issues st ++ i :: more.

(** The keys of all objects of a list of values. *)
Definition keyCountAll (l : list Value) : Z :=
  fold_right (λ x acc, keyCount x + acc) 0 l.

(** [verdict ok k st st']: when [ok], the visit added [k] keys to the count
    and no issue; otherwise it added an issue. *)
Definition verdict (ok : bool) (k : Z) (st st' : VisitState) : Prop :=
  if ok then st' = mkVisit (totalKeys st + k) (issues st)
  else flagged st st'.

Definition visit_verdict_at (v : Value) : Prop :=
  ∀ d st, totalKeys st <= maxTotalKeys →
    verdict (fits d v && (totalKeys st + keyCount v <=? maxTotalKeys))
            (keyCount v) st (visit v d st).

(** [fits] against the limits on the values below [v]. *)
Definition fits_limits_at (v : Value) : Prop :=
  ∀ d, fits d v = true ↔
       d + nestingDepth v <= maxDepth ∧ Forall nodeWithinLimits (nodes v).

End Payload.

(** ** The tool-call handler ([src/index.ts]) *)

Module Server.
Import JS ToolGuards.

(** The methods of [QuickBaseClient] the handler calls; each performs the
    remote calls of its operation. *)
Inductive ClientMethod : Type :=
| getAppInfo | getAppTables | testConnection
| createTable | getTableInfo | deleteTable
| getTableFields | createField | updateField | deleteField
| getRecords | getRecord | createRecord | updateRecord | deleteRecord
| createRecords | searchRecords
| createRelationship | getRelationships
| getReports | runReport
| createAdvancedRelationship | createLookupField | validateRelationship
| getRelationshipDetails | createJunctionTable
| createWebhook | listWebhooks | deleteWebhook | testWebhook
| createNotification | listNotifications | deleteNotification.

(** The zod schemas handed to [parseArgs]. *)
Inductive Schema : Type :=
| TableIdSchema | RecordIdSchema | CreateTableSchema | CreateFieldSchema
| UpdateFieldArgsSchema | DeleteFieldArgsSchema
| QueryRecordsSchema | GetRecordArgsSchema
| CreateRecordSchema | UpdateRecordSchema | BulkCreateSchema
| SearchRecordsSchema | CreateRelationshipSchema | RunReportArgsSchema
| CreateAdvancedRelationshipSchema | CreateLookupFieldSchema
| ValidateRelationshipSchema | GetRelationshipDetailsSchema
| CreateJunctionTableSchema
| CreateWebhookSchema | ListWebhooksSchema | DeleteWebhookSchema
| TestWebhookSchema
| CreateNotificationSchema | ListNotificationsSchema
| DeleteNotificationSchema.

(** The schemas with a [confirm: z.literal(true)] member. *)
Definition hasConfirmLiteral (s : Schema) : bool :=
  match s with
  | CreateTableSchema | CreateFieldSchema | UpdateFieldArgsSchema
  | CreateRecordSchema | UpdateRecordSchema | BulkCreateSchema
  | CreateRelationshipSchema
  | CreateAdvancedRelationshipSchema | CreateLookupFieldSchema
  | CreateJunctionTableSchema
  | CreateWebhookSchema | CreateNotificationSchema => true
  | _ => false
  end.

(** The parse of a [fields] member goes through: the record as rebuilt
    by [z.record] draws no issue from the refinement. *)
Definition noIssue (fields : Value) : bool :=
  match Payload.parseFields fields with
  | inl _ => true
  | inr _ => false
  end.

(** The [superRefine] members: [fields] of a record creation or update,
    and [fields] of every entry of [records] of a bulk creation, each
    entry parsed on its own. *)
Definition payloadAccepted (s : Schema) (args : Value) : bool :=
  match s, args with
  | CreateRecordSchema, VObject props
  | UpdateRecordSchema, VObject props => noIssue (getProp "fields" props)
  | BulkCreateSchema, VObject props =>
      match getProp "records" props with
      | VArray records =>
          forallb (fun r => match r with
                            | VObject rp => noIssue (getProp "fields" rp)
                            | _ => true
                            end) records
      | _ => true
      end
  | _, _ => true
  end.

(** The [switch] of the handler: for each tool name the schema its
    arguments are parsed with (none for the first three) and the client
    method called next. *)
Definition cases : list (string * (option Schema * ClientMethod)) :=
  [ ("quickbase_get_app_info", (None, getAppInfo));
    ("quickbase_get_tables", (None, getAppTables));
    ("quickbase_test_connection", (None, testConnection));
    ("quickbase_create_table", (Some CreateTableSchema, createTable));
    ("quickbase_get_table_info", (Some TableIdSchema, getTableInfo));
    ("quickbase_delete_table", (Some TableIdSchema, deleteTable));
    ("quickbase_get_table_fields", (Some TableIdSchema, getTableFields));
    ("quickbase_create_field", (Some CreateFieldSchema, createField));
    ("quickbase_update_field", (Some UpdateFieldArgsSchema, updateField));
    ("quickbase_delete_field", (Some DeleteFieldArgsSchema, deleteField));
    ("quickbase_query_records", (Some QueryRecordsSchema, getRecords));
    ("quickbase_get_record", (Some GetRecordArgsSchema, getRecord));
    ("quickbase_create_record", (Some CreateRecordSchema, createRecord));
    ("quickbase_update_record", (Some UpdateRecordSchema, updateRecord));
    ("quickbase_delete_record", (Some RecordIdSchema, deleteRecord));
    ("quickbase_bulk_create_records", (Some BulkCreateSchema, createRecords));
    ("quickbase_search_records", (Some SearchRecordsSchema, searchRecords));
    ("quickbase_create_relationship",
      (Some CreateRelationshipSchema, createRelationship));
    ("quickbase_get_relationships", (Some TableIdSchema, getRelationships));
    ("quickbase_get_reports", (Some TableIdSchema, getReports));
    ("quickbase_run_report", (Some RunReportArgsSchema, runReport));
    ("quickbase_create_advanced_relationship",
      (Some CreateAdvancedRelationshipSchema, createAdvancedRelationship));
    ("quickbase_create_lookup_field",
      (Some CreateLookupFieldSchema, createLookupField));
    ("quickbase_validate_relationship",
      (Some ValidateRelationshipSchema, validateRelationship));
    ("quickbase_get_relationship_details",
      (Some GetRelationshipDetailsSchema, getRelationshipDetails));
    ("quickbase_create_junction_table",
      (Some CreateJunctionTableSchema, createJunctionTable));
    ("quickbase_create_webhook", (Some CreateWebhookSchema, createWebhook));
    ("quickbase_list_webhooks", (Some ListWebhooksSchema, listWebhooks));
    ("quickbase_delete_webhook", (Some DeleteWebhookSchema, deleteWebhook));
    ("quickbase_test_webhook", (Some TestWebhookSchema, testWebhook));
    ("quickbase_create_notification",
      (Some CreateNotificationSchema, createNotification));
    ("quickbase_list_notifications",
      (Some ListNotificationsSchema, listNotifications));
    ("quickbase_delete_notification",
      (Some DeleteNotificationSchema, deleteNotification)) ].

Fixpoint selectCase (name : string)
         (l : list (string * (option Schema * ClientMethod)))
  : option (option Schema * ClientMethod) :=
  match l with
  | [] => None
  | (n, c) :: rest => if String.eqb name n then Some c else selectCase name rest
  end.

(** What the handler throws before a client method is reached; its
    [catch] passes each on as an [McpError] whose message names the tool
    and repeats the message of what was thrown. *)
Inductive Thrown : Type :=
| GuardRefusal (e : GuardError)
| InvalidArguments (tool : string)
| UnknownTool (name : string).

(** [Invoke m]: control reaches the call of client method [m], the first
    point at which a remote call can be made. *)
Inductive Outcome : Type :=
| Rejected (t : Thrown)
| Invoke (m : ClientMethod).

Section Handler.
(** The members of a schema other than [confirm] and the refined
    payloads (types, lengths, enumerations of the remaining
    arguments). *)
Variable otherMembersOk : Schema -> Value -> bool.
(** The process configuration, read from [QB_READONLY] and
    [QB_ALLOW_DESTRUCTIVE]. *)
Variables readOnly allowDestructive : bool.

(** [schema.parse(args ?? {})] succeeds. *)
Definition parseArgs (schema : Schema) (args : Value) : bool :=
  let input := match args with
               | VNull | VUndefined => VObject []
               | _ => args
               end in
  (if hasConfirmLiteral schema then confirmed input else true)
  && payloadAccepted schema input
  && otherMembersOk schema input.

Definition handleToolCall (name : string) (args : Value) : Outcome :=
  match assertToolAllowed name args readOnly allowDestructive with
  | Some e => Rejected (GuardRefusal e)
  | None =>
      match selectCase name cases with
      | None => Rejected (UnknownTool name)
      | Some (None, m) => Invoke m
      | Some (Some schema, m) =>
          if parseArgs schema args then Invoke m
          else Rejected (InvalidArguments name)
      end
  end.
End Handler.

(** The client methods that change the schema of the application: its
    tables, fields and relationships. *)
Definition schemaMutating (m : ClientMethod) : bool :=
  match m with
  | createTable | deleteTable
  | createField | updateField | deleteField
  | createRelationship
  | createAdvancedRelationship | createLookupField | createJunctionTable =>
      true
  | _ => false
  end.

(** The gate as claimed: in read-only mode a tool outside the allowlist is
    refused by the guard, and a schema-mutating tool called without
    [confirm = true] never reaches its client method. *)
Definition confirmation_gate (exempt : string → Prop) : Prop :=
  ∀ otherMembersOk readOnly allowDestructive name args,
    (readOnly = true → name ∉ readOnlyAllowedTools →
     handleToolCall otherMembersOk readOnly allowDestructive name args
     = Rejected (GuardRefusal (ReadOnlyMode name)))
    ∧
    (∀ schema m,
       selectCase name cases = Some (schema, m) →
       schemaMutating m = true →
       ¬ exempt name →
       confirmed args = false →
       ∃ t, handleToolCall otherMembersOk readOnly allowDestructive name args
            = Rejected t).

End Server.

(** ** The relationship orchestrator ([src/quickbase/client.ts]) *)

Module Orchestrator.

(** *** Data model *)

(** Modelled from the spec: the data model of section 3 (fields, records,
    tables), whose declarations in [src/types/quickbase.ts] are not among
    the sources.  The kind-specific configuration of a field: a reference
    field names its parent table; a lookup field names the source table,
    the source field and the reference field connecting the two tables. *)
Inductive FieldConfig : Type :=
| Plain
| ReferenceTo (parentTableId : string)
| LookupOf (sourceTableId : string) (sourceFieldId : Z)
           (referenceFieldId : Z).

Record FieldSpec : Type := mkSpec {
  label : string;
  kind : string;
  config : FieldConfig
}.

Record Field : Type := mkField {
  fieldId : Z;
  fieldSpec : FieldSpec
}.

(** A record: its identifier and, per reference field, the identifier of
    the parent record it points at. *)
Record Row : Type := mkRow {
  recordId : Z;
  values : gmap Z Z
}.

Record TableInfo : Type := mkInfo {
  infoId : string;
  infoName : string
}.

Inductive Result (A : Type) : Type :=
| Ok (a : A)
| Failed (reason : string).
Arguments Ok {A} a.
Arguments Failed {A} reason.

(** *** The Remote Table Service client *)

(** Modelled from the spec: the Remote Table Service client of
    [src/quickbase/client.ts], which is not among the sources.  It offers
    single remote operations, each reporting success with the
    service-assigned result or a failure with its reason; [S] is the state
    of the service. *)
Record Remote (S : Type) : Type := mkRemote {
  createTable : string -> S -> Result string * S;
  createField : string -> FieldSpec -> S -> Result Z * S;
  getTableInfo : string -> S -> Result TableInfo * S;
  getTableFields : string -> S -> Result (list Field) * S;
  queryRecords : string -> S -> Result (list Row) * S
}.
Arguments createTable {S} _ _ _.
Arguments createField {S} _ _ _ _.
Arguments getTableInfo {S} _ _ _.
Arguments getTableFields {S} _ _ _.
Arguments queryRecords {S} _ _ _.

(** A remote call as it leaves the client, and what came back. *)
Inductive Call : Type :=
| CreateTable (name : string)
| CreateField (tableId : string) (spec : FieldSpec)
| GetTableInfo (tableId : string)
| GetTableFields (tableId : string)
| QueryRecords (tableId : string).

Inductive Reply : Type :=
| RError (reason : string)
| RTableId (id : string)
| RFieldId (id : Z)
| RInfo (info : TableInfo)
| RFields (fields : list Field)
| RRows (rows : list Row).

Record Event : Type := mkEvent {
  call : Call;
  reply : Reply
}.

(** The read operations: table info, field list, record query. *)
Definition isRead (c : Call) : bool :=
  match c with
  | GetTableInfo _ | GetTableFields _ | QueryRecords _ => true
  | CreateTable _ | CreateField _ _ => false
  end.


Inductive RelationshipKind : Type := OneToMany | ManyToMany.

Record LookupSpec : Type := mkLookup {
  parentFieldId : Z;
  childFieldLabel : string
}.

Record ExtraField : Type := mkExtra {
  extraLabel : string;
  extraKind : string
}.

Record RelationshipResult : Type := mkRelationship {
  referenceFieldId : Z;
  lookupFieldIds : list Z
}.

Record JunctionResult : Type := mkJunction {
  junctionTableId : string;
  table1ReferenceFieldId : Z;
  table2ReferenceFieldId : Z;
  extraFieldIds : list Z
}.

Record Validation : Type := mkValidation {
  isValid : bool;
  issues : list string;
  orphanedRecords : list Z
}.

Section Client.
Context {S : Type} (remote : Remote S).

(** The service together with the calls issued so far. *)
Record World : Type := mkWorld {
  service : S;
  log : list Event
}.

(** An asynchronous method: it runs against the world and either
    resolves with a value or rejects with a reason. *)
Definition M (A : Type) : Type := World -> Result A * World.

Definition ret {A} (a : A) : M A := fun w => (Ok a, w).

Definition bind {A B} (m : M A) (k : A -> M B) : M B :=
  fun w =>
    match m w with
    | (Ok a, w') => k a w'
    | (Failed e, w') => (Failed e, w')
    end.

(** [try { ... } catch]: the outcome of [m] as a value. *)
Definition attempt {A} (m : M A) : M (Result A) :=
  fun w => let '(r, w') := m w in (Ok r, w').

(** One remote call: the only way the service is reached. *)
Definition issue {A} (c : Call) (op : S -> Result A * S)
           (inj : A -> Reply) : M A :=
  fun w =>
    let '(r, s') := op (service w) in
    (r, mkWorld s'
          (log w ++ [mkEvent c match r with
                               | Ok a => inj a
                               | Failed e => RError e
                               end])).

Definition remoteCreateTable (name : string) : M string :=
  issue (CreateTable name) (createTable remote name) RTableId.
Definition remoteCreateField (t : string) (spec : FieldSpec) : M Z :=
  issue (CreateField t spec) (createField remote t spec) RFieldId.
Definition remoteGetTableInfo (t : string) : M TableInfo :=
  issue (GetTableInfo t) (getTableInfo remote t) RInfo.
Definition remoteGetTableFields (t : string) : M (list Field) :=
  issue (GetTableFields t) (getTableFields remote t) RFields.
Definition remoteQueryRecords (t : string) : M (list Row) :=
  issue (QueryRecords t) (queryRecords remote t) RRows.

Notation "'await' x := m 'in' k" := (bind m (fun x => k))
  (at level 10, x name, m at level 100, k at level 200).

(** *** Relationship builder *)

(** Modelled from the spec: [createLookupField] of
    [src/quickbase/client.ts] (not among the sources): one field
    creation on the child table, of kind lookup, whose configuration
    names the parent table, the parent field and the reference field. *)
Definition createLookupField (childTableId parentTableId : string)
           (referenceFieldId parentFieldId : Z)
           (lookupFieldLabel : string) : M Z :=
  remoteCreateField childTableId
    (mkSpec lookupFieldLabel "lookup"
            (LookupOf parentTableId parentFieldId referenceFieldId)).

(** Step (2) of the builder: one lookup field per entry, in input
    order, each identifier captured as it is returned. *)
Fixpoint createLookups (parentTableId childTableId : string)
         (referenceFieldId : Z) (specs : list LookupSpec) : M (list Z) :=
  match specs with
  | [] => ret []
  | s :: rest =>
      await id :=
        createLookupField childTableId parentTableId referenceFieldId
          (parentFieldId s) (childFieldLabel s) in
      await ids :=
        createLookups parentTableId childTableId referenceFieldId rest in
      ret (id :: ids)
  end.

(** Modelled from the spec: [createAdvancedRelationship] of
    [src/quickbase/client.ts] (not among the sources), after section 4.1:
    (1) one reference field on the child table; (2) one lookup field per
    entry of [lookupSpecs]; (3) the reference field identifier and the
    ordered lookup field identifiers.  An omitted [lookupSpecs] is
    [None].  [relationshipKind] takes no part in the call sequence. *)
Definition createAdvancedRelationship (parentTableId childTableId : string)
           (referenceLabel : string)
           (lookupSpecs : option (list LookupSpec))
           (relationshipKind : RelationshipKind) : M RelationshipResult :=
  await referenceFieldId :=
    remoteCreateField childTableId
      (mkSpec referenceLabel "reference" (ReferenceTo parentTableId)) in
  await lookupFieldIds :=
    createLookups parentTableId childTableId referenceFieldId
      (default [] lookupSpecs) in
  ret (mkRelationship referenceFieldId lookupFieldIds).

(** *** Junction table builder *)

(** Step (4) of the junction builder: the extra fields, in input
    order. *)
Fixpoint createExtraFields (tableId : string) (extras : list ExtraField)
  : M (list Z) :=
  match extras with
  | [] => ret []
  | x :: rest =>
      await id := remoteCreateField tableId
              (mkSpec (extraLabel x) (extraKind x) Plain) in
      await ids := createExtraFields tableId rest in
      ret (id :: ids)
  end.

(** Modelled from the spec: [createJunctionTable] of
    [src/quickbase/client.ts] (not among the sources), after section 4.2:
    (1) a new table; (2) a reference field on it toward [table1Id];
    (3) a reference field on it toward [table2Id]; (4) the extra
    fields.  An omitted [extraFields] is [None]. *)
Definition createJunctionTable (name table1Id table2Id : string)
           (table1Label table2Label : string)
           (extraFields : option (list ExtraField)) : M JunctionResult :=
  await junctionTableId := remoteCreateTable name in
  await ref1 := remoteCreateField junctionTableId
            (mkSpec table1Label "reference" (ReferenceTo table1Id)) in
  await ref2 := remoteCreateField junctionTableId
            (mkSpec table2Label "reference" (ReferenceTo table2Id)) in
  await extraIds :=
    createExtraFields junctionTableId (default [] extraFields) in
  ret (mkJunction junctionTableId ref1 ref2 extraIds).

(** *** Relationship integrity validator *)

Definition isReference (f : Field) : bool :=
  String.eqb (kind (fieldSpec f)) "reference".

Definition parentIssues (info : Result TableInfo) : list string :=
  match info with
  | Ok _ => []
  | Failed _ => ["parent table not found"]
  end.

Definition childIssues (info : Result TableInfo) : list string :=
  match info with
  | Ok _ => []
  | Failed _ => ["child table not found"]
  end.

(** Check 3: the field is missing, or it is there with another kind. *)
Definition fieldIssues (foreignKeyFieldId : Z)
           (fields : Result (list Field)) : list string :=
  let candidates :=
    match fields with
    | Ok fs => List.filter (fun f => fieldId f =? foreignKeyFieldId) fs
    | Failed _ => []
    end in
  match candidates with
  | [] => ["foreign key field " +:+ pretty foreignKeyFieldId
             +:+ " not found in child table"]
  | _ => if existsb isReference candidates then []
         else ["field " +:+ pretty foreignKeyFieldId
                 +:+ " is not a reference field"]
  end.

(** A child record is orphaned when it holds a value for the foreign
    key that is the identifier of no parent record. *)
Definition isOrphan (foreignKeyFieldId : Z) (parentRows : list Row)
           (r : Row) : bool :=
  match values r !! foreignKeyFieldId with
  | Some v => negb (existsb (fun p => recordId p =? v) parentRows)
  | None => false
  end.

Definition orphanIssues (orphans : list Z) : list string :=
  match orphans with
  | [] => []
  | _ => ["found " +:+ pretty (length orphans) +:+ " orphaned records"]
  end.

Definition isEmpty {A} (l : list A) : bool :=
  match l with [] => true | _ => false end.

(** Modelled from the spec: [validateRelationship] of
    [src/quickbase/client.ts] (not among the sources), after section 4.3.
    The structural checks 1-3 form the first category: each failing
    check adds its issue, and a failure among them ends the validation.
    Otherwise the child records are scanned for orphans against the
    parent records; the orphaned child records are returned and
    contribute one issue noting their number.  [isValid] holds when no
    issue was recorded. *)
Definition validateRelationship (parentTableId childTableId : string)
           (foreignKeyFieldId : Z) : M Validation :=
  await parent := attempt (remoteGetTableInfo parentTableId) in
  await child := attempt (remoteGetTableInfo childTableId) in
  await fields := attempt (remoteGetTableFields childTableId) in
  let structural :=
    parentIssues parent ++ childIssues child
      ++ fieldIssues foreignKeyFieldId fields in
  if isEmpty structural then
    await childRows := remoteQueryRecords childTableId in
    await parentRows := remoteQueryRecords parentTableId in
    let orphans :=
      recordId <$>
        List.filter (isOrphan foreignKeyFieldId parentRows) childRows in
    let found := orphanIssues orphans in
    ret (mkValidation (isEmpty found) found orphans)
  else
    ret (mkValidation false structural []).

(** *** The calls of a method *)

(** [bounded n P m]: [m] adds at most [n] calls to the log, all of them
    satisfying [P], and removes none. *)
Definition bounded {A} (n : nat) (P : Call → Prop) (m : M A) : Prop :=
  ∀ w, ∃ evs, log (m w).2 = log w ++ evs
              ∧ (length evs ≤ n)%nat
              ∧ Forall (λ e, P (call e)) evs.



(** The reads of the service change nothing of it; a method leaves the
    service as it found it. *)
Definition readsPreserve : Prop :=
  (∀ t s, (getTableInfo remote t s).2 = s)
  ∧ (∀ t s, (getTableFields remote t s).2 = s)
  ∧ (∀ t s, (queryRecords remote t s).2 = s).

Definition preserves {A} (m : M A) : Prop :=
  ∀ w, service (m w).2 = service w.

(** Running a method against a service with an empty call log. *)
Definition run {A} (m : M A) (s : S) : Result A * World :=
  m (mkWorld s []).

End Client.

(** *** The calls a successful build consists of *)

Definition referenceField (label parentTableId : string) : FieldSpec :=
  mkSpec label "reference" (ReferenceTo parentTableId).

Definition lookupField (parentTableId : string) (referenceFieldId : Z)
           (s : LookupSpec) : FieldSpec :=
  mkSpec (childFieldLabel s) "lookup"
         (LookupOf parentTableId (parentFieldId s) referenceFieldId).


(** A field creation the service answered with the identifier [id]. *)
Definition fieldCreated (tableId : string) (spec : FieldSpec) (id : Z)
  : Event :=
  mkEvent (CreateField tableId spec) (RFieldId id).


(** The reference field, then the lookup fields in the order of the
    specs, each with the identifier the service assigned. *)
Definition relationshipEvents (parentTableId childTableId label : string)
           (specs : list LookupSpec) (r : RelationshipResult) : list Event :=
  fieldCreated childTableId (referenceField label parentTableId)
               (referenceFieldId r)
  :: zip_with (fun s id =>
                 fieldCreated childTableId
                   (lookupField parentTableId (referenceFieldId r) s) id)
       specs (lookupFieldIds r).





(** *** What the service receives *)

(** A service that keeps a journal: beside its state, every call it
    received and what it answered, in order.  The journal is written by
    the service when it is called, and in no other way. *)
Definition journalled {S A} (c : Call) (inj : A -> Reply)
           (op : S -> Result A * S) (sj : S * list Event)
  : Result A * (S * list Event) :=
  let '(r, s') := op sj.1 in
  (r, (s', sj.2 ++ [mkEvent c match r with
                              | Ok a => inj a
                              | Failed e => RError e
                              end])).

Definition recording {S} (remote : Remote S) : Remote (S * list Event) :=
  mkRemote (S * list Event)
    (fun name =>
       journalled (CreateTable name) RTableId (createTable remote name))
    (fun t spec =>
       journalled (CreateField t spec) RFieldId (createField remote t spec))
    (fun t => journalled (GetTableInfo t) RInfo (getTableInfo remote t))
    (fun t => journalled (GetTableFields t) RFields (getTableFields remote t))
    (fun t => journalled (QueryRecords t) RRows (queryRecords remote t)).

(** The outcome of a method run against the journal-keeping service
    started in state [s] with an empty journal, and the journal of the
    service afterwards: the remote calls that were made. *)
Definition served {S A} (m : @M (S * list Event) A) (s : S)
  : Result A * list Event :=
  let '(r, w') := run m (s, []) in (r, (service w').2).

(** [journalKept m]: what [m] adds to the log of the client is what the
    service adds to its journal. *)
Definition journalKept {S A} (m : @M (S * list Event) A) : Prop :=
  ∀ w, ∃ evs, log (m w).2 = log w ++ evs
              ∧ (service (m w).2).2 = (service w).2 ++ evs.

(** [observes m' m]: run against the journal-keeping service, [m']
    resolves or rejects as [m] does against the service itself, and
    leaves that service in the same state. *)
Definition observes {S A} (m' : @M (S * list Event) A) (m : @M S A) : Prop :=
  ∀ u w, (service u).1 = service w →
         (m' u).1 = (m w).1 ∧ (service (m' u).2).1 = service (m w).2.




(** *** A table service *)

Record Table : Type := mkTable {
  tableName : string;
  fields : list Field;
  rows : list Row
}.

(** Modelled from the spec: a Remote Table Service holding tables with
    their fields and records (section 3), which assigns table and field
    identifiers itself.  A call naming a table that does not exist fails;
    reads leave the service as it is. *)
Record Store : Type := mkStore {
  tables : gmap string Table;
  nextTable : Z;
  nextField : Z
}.

Definition notFound {A} (t : string) : Result A :=
  Failed ("table not found: " +:+ t).

Definition storeCreateTable (name : string) (s : Store)
  : Result string * Store :=
  let id := "tbl" +:+ pretty (nextTable s) in
  (Ok id, mkStore (<[id := mkTable name [] []]> (tables s))
                  (nextTable s + 1) (nextField s)).

Definition storeCreateField (t : string) (spec : FieldSpec) (s : Store)
  : Result Z * Store :=
  match tables s !! t with
  | None => (notFound t, s)
  | Some tb =>
      let id := nextField s in
      (Ok id,
       mkStore (<[t := mkTable (tableName tb)
                         (fields tb ++ [mkField id spec]) (rows tb)]>
                  (tables s))
               (nextTable s) (nextField s + 1))
  end.

Definition storeRead {A} (f : string -> Table -> A) (t : string) (s : Store)
  : Result A * Store :=
  match tables s !! t with
  | None => (notFound t, s)
  | Some tb => (Ok (f t tb), s)
  end.

Definition storeRemote : Remote Store :=
  mkRemote Store
    storeCreateTable
    storeCreateField
    (storeRead (fun t tb => mkInfo t (tableName tb)))
    (storeRead (fun _ tb => fields tb))
    (storeRead (fun _ tb => rows tb)).

(** The relationship (parent, child, foreign key) is intact in a store:
    both tables exist, the foreign key is among the fields of the child
    table with kind reference, and no child record points at a parent
    record that does not exist. *)
Definition relationshipIntact (s : Store) (parentTableId childTableId : string)
           (foreignKeyFieldId : Z) : Prop :=
  exists pt ct,
    tables s !! parentTableId = Some pt
    /\ tables s !! childTableId = Some ct
    /\ (exists f, f ∈ fields ct /\ fieldId f = foreignKeyFieldId
                  /\ kind (fieldSpec f) = "reference")
    /\ (forall r v, r ∈ rows ct -> values r !! foreignKeyFieldId = Some v ->
                    exists p, p ∈ rows pt /\ recordId p = v).

(** An application with two tables, after the fixtures of the client
    tests: companies [bux123] and contacts [bux124]; contact 3 has no
    company. *)
Definition companies : Table :=
  mkTable "Companies" [mkField 6 (mkSpec "Name" "text" Plain)]
          [mkRow 1 ∅; mkRow 2 ∅].

Definition contacts : Table :=
  mkTable "Contacts"
          [mkField 6 (mkSpec "Full name" "text" Plain);
           mkField 10 (referenceField "Company" "bux123")]
          [mkRow 1 {[ 10 := 1 ]}; mkRow 2 {[ 10 := 2 ]}; mkRow 3 ∅].

Definition sampleApp : Store :=
  mkStore {[ "bux123" := companies; "bux124" := contacts ]} 1 20.

(** The same application with a contact pointing at company 999. *)
Definition orphanedApp : Store :=
  mkStore {[ "bux123" := companies;
             "bux124" := mkTable "Contacts" (fields contacts)
                           (rows contacts ++ [mkRow 4 {[ 10 := 999 ]}]) ]}
          1 20.

End Orchestrator.

(** ** The advertised tools ([src/tools/index.ts]) *)

Module Tools.

(** [quickbaseTools]: for each tool its [name] and the [required] list of
    its [inputSchema], in the order of the source. *)
Definition quickbaseTools : list (string * list string) :=
[ ("quickbase_get_app_info", []);
  ("quickbase_get_tables", []);
  ("quickbase_test_connection", []);
  ("quickbase_create_table", ["confirm"; "name"]);
  ("quickbase_get_table_info", ["tableId"]);
  ("quickbase_delete_table", ["tableId"]);
  ("quickbase_get_table_fields", ["tableId"]);
  ("quickbase_create_field", ["confirm"; "tableId"; "label"; "fieldType"]);
  ("quickbase_update_field", ["confirm"; "tableId"; "fieldId"]);
  ("quickbase_delete_field", ["tableId"; "fieldId"]);
  ("quickbase_query_records", ["tableId"]);
  ("quickbase_get_record", ["tableId"; "recordId"]);
  ("quickbase_create_record", ["confirm"; "tableId"; "fields"]);
  ("quickbase_update_record", ["confirm"; "tableId"; "recordId"; "fields"]);
  ("quickbase_delete_record", ["tableId"; "recordId"]);
  ("quickbase_bulk_create_records", ["confirm"; "tableId"; "records"]);
  ("quickbase_search_records", ["tableId"; "searchTerm"]);
  ("quickbase_create_relationship",
    ["confirm"; "parentTableId"; "childTableId"; "foreignKeyFieldId"]);
  ("quickbase_get_relationships", ["tableId"]);
  ("quickbase_get_reports", ["tableId"]);
  ("quickbase_run_report", ["reportId"; "tableId"]);
  ("quickbase_create_advanced_relationship",
    ["confirm"; "parentTableId"; "childTableId"; "referenceFieldLabel"]);
  ("quickbase_create_lookup_field",
    ["confirm"; "childTableId"; "parentTableId"; "referenceFieldId";
     "parentFieldId"; "lookupFieldLabel"]);
  ("quickbase_validate_relationship",
    ["parentTableId"; "childTableId"; "foreignKeyFieldId"]);
  ("quickbase_get_relationship_details", ["tableId"]);
  ("quickbase_create_junction_table",
    ["confirm"; "junctionTableName"; "table1Id"; "table2Id";
     "table1FieldLabel"; "table2FieldLabel"]);
  ("quickbase_create_webhook",
    ["confirm"; "tableId"; "label"; "webhookUrl"; "webhookEvents"]);
  ("quickbase_list_webhooks", ["tableId"]);
  ("quickbase_delete_webhook", ["tableId"; "webhookId"]);
  ("quickbase_test_webhook", ["webhookUrl"; "testPayload"]);
  ("quickbase_create_notification",
    ["confirm"; "tableId"; "label"; "notificationEvent"; "recipientEmail";
     "messageSubject"; "messageBody"]);
  ("quickbase_list_notifications", ["tableId"]);
  ("quickbase_delete_notification", ["tableId"; "notificationId"]) ].

Definition advertised (name : string) : Prop :=
  In name (map fst quickbaseTools).

(** The [required] list advertised for a tool, if the tool is advertised. *)
Fixpoint requiredOf (name : string) (l : list (string * list string))
  : option (list string) :=
  match l with
  | [] => None
  | (n, r) :: rest => if String.eqb name n then Some r else requiredOf name rest
  end.

End Tools.

(** ** Server start-up ([src/index.ts], the constructor) *)

Module Startup.

(** [process.env.X || '']: an unset variable and the empty string both give
    the empty string. *)
Definition orEmpty (v : option string) : string := default "" v.

(** What the constructor keeps for the handler. *)
Record ServerState : Type := mkServer {
  allowDestructive : bool;
  readOnly : bool
}.

Definition missingVariables : string :=
  "Missing required environment variables: QB_REALM, QB_USER_TOKEN, QB_APP_ID".

(** The constructor on the environment left by [loadDotenv]: it throws when
    the realm, the user token or the application id is empty, and otherwise
    reads the two flags, each with default [false].  The timeout and the
    retry count are parsed from two further variables and handed to the
    client together with the three values; the handler does not see
    them. *)
Definition construct (env : gmap string string) : string + ServerState :=
  let realm := orEmpty (env !! "QB_REALM") in
  let userToken := orEmpty (env !! "QB_USER_TOKEN") in
  let appId := orEmpty (env !! "QB_APP_ID") in
  if String.eqb realm "" || String.eqb userToken "" || String.eqb appId ""
  then inl missingVariables
  else inr (mkServer (Env.envFlag env "QB_ALLOW_DESTRUCTIVE" false)
                     (Env.envFlag env "QB_READONLY" false)).

(** A tool call on the server constructed from [env]. *)
Definition callTool (otherMembersOk : Server.Schema -> JS.Value -> bool)
           (srv : ServerState) (name : string) (args : JS.Value)
  : Server.Outcome :=
  Server.handleToolCall otherMembersOk (readOnly srv) (allowDestructive srv)
    name args.

(** Two environments: deletions enabled with a padded, capitalised value,
    and read-only mode switched on. *)
Definition destructiveEnv : gmap string string :=
  {[ "QB_REALM" := "example.quickbase.com";
     "QB_USER_TOKEN" := "token123";
     "QB_APP_ID" := "bux123";
     "QB_ALLOW_DESTRUCTIVE" := " Yes " ]}.

Definition readOnlyEnv : gmap string string :=
  {[ "QB_REALM" := "example.quickbase.com";
     "QB_USER_TOKEN" := "token123";
     "QB_APP_ID" := "bux123";
     "QB_READONLY" := "on" ]}.

End Startup.

(** ** Classes of client methods and of issues *)

Module Classes.
Import JS Payload Server.

(** The client methods behind the tools of the read-only allowlist. *)
Definition readMethod (m : ClientMethod) : bool :=
  match m with
  | getAppInfo | getAppTables | testConnection | getTableInfo
  | getTableFields | getRecords | getRecord | searchRecords
  | getRelationships | getReports | runReport => true
  | _ => false
  end.

(** The client methods behind the destructive tools. *)
Definition deleteMethod (m : ClientMethod) : bool :=
  match m with
  | deleteTable | deleteField | deleteRecord => true
  | _ => false
  end.

(** The client methods that create or update tables, fields, records,
    relationships, webhooks and notifications. *)
Definition writeMethod (m : ClientMethod) : bool :=
  match m with
  | createTable | createField | updateField
  | createRecord | updateRecord | createRecords
  | createRelationship
  | createAdvancedRelationship | createLookupField | createJunctionTable
  | createWebhook | createNotification => true
  | _ => false
  end.

(** What an issue says about the payload: [deep] for the depth limit,
    [many] for the total key count, and for the others a value among [ns]
    that breaks the limit the issue names. *)
Definition justifiedBy (deep many : Prop) (ns : list Value) (i : Issue)
  : Prop :=
  match i with
  | NestingTooDeep => deep
  | TooManyKeysOverall => many
  | StringTooLong =>
      exists s, In (VString s) ns /\ maxStringLength < strlen s
  | ArrayTooLarge =>
      exists items, In (VArray items) ns /\ maxArrayLength < lenZ items
  | TooManyKeys =>
      exists props, In (VObject props) ns /\ maxKeysPerObject < lenZ props
  | KeyTooLong =>
      exists props k v, In (VObject props) ns /\ In (k, v) props
                        /\ maxKeyLength < strlen k
  | UnsupportedType t => In (VOther t) ns
  end.

(** An issue is justified by the payload it was raised for. *)
Definition justified (payload : Value) (i : Issue) : Prop :=
  justifiedBy (maxDepth < nestingDepth payload)
              (maxTotalKeys < keyCount payload) (nodes payload) i.

(** What the issues added by one visit say, and how far the key count
    moves. *)
Definition visit_justified_at (v : Value) : Prop :=
  ∀ d st, ∃ more,
    issues (visit v d st) = issues st ++ more
    ∧ Forall (justifiedBy (maxDepth < d + nestingDepth v)
                (maxTotalKeys < totalKeys st + keyCount v) (nodes v)) more
    ∧ totalKeys st <= totalKeys (visit v d st) <= totalKeys st + keyCount v.

(** A value of a payload is no deeper than the payload, holds no more
    keys, and its values are values of the payload. *)
Definition part_at (v : Value) : Prop :=
  forall n, In n (nodes v) ->
            nestingDepth n <= nestingDepth v
            /\ keyCount n <= keyCount v
            /\ forall x, In x (nodes n) -> In x (nodes v).

(** A string of white space only. *)
Fixpoint blank (s : string) : bool :=
  match s with
  | EmptyString => true
  | String c rest => Env.isWhiteSpace c && blank rest
  end.

End Classes.

(** * Properties *)

(** ** Environment flags *)

Section EnvFlag.
Import Env.

Lemma true_values_elem s :
  s ∈ TRUE_VALUES ↔
  s = "1" ∨ s = "true" ∨ s = "yes" ∨ s = "y" ∨ s = "on".
Proof. unfold TRUE_VALUES. set_unfold. tauto. Qed.

Lemma false_values_elem s :
  s ∈ FALSE_VALUES ↔
  s = "0" ∨ s = "false" ∨ s = "no" ∨ s = "n" ∨ s = "off".
Proof. unfold FALSE_VALUES. set_unfold. tauto. Qed.

Lemma true_not_false s : s ∈ TRUE_VALUES → s ∉ FALSE_VALUES.
Proof.
  rewrite true_values_elem, false_values_elem.
  intros Ht Hf.
  destruct Ht as [-> | [-> | [-> | [-> | ->]]]];
    destruct Hf as [? | [? | [? | [? | ?]]]]; discriminate.
Qed.

Lemma strlen_zero s : Z.eqb (JS.strlen s) 0 = true ↔ s = "".
Proof.
  unfold JS.strlen. rewrite Z.eqb_eq. destruct s; simpl; split;
    intros; try done; lia.
Qed.

Lemma empty_no_flag : ("" ∉ TRUE_VALUES) ∧ ("" ∉ FALSE_VALUES).
Proof.
  rewrite true_values_elem, false_values_elem.
  split; intros [? | [? | [? | [? | ?]]]]; discriminate.
Qed.

(** The three outcomes of [envFlag] on a set variable, by its normalized
    value. *)
Lemma envFlag_set env name raw d :
  env !! name = Some raw →
  envFlag env name d =
    if bool_decide (normalize raw ∈ TRUE_VALUES) then true
    else if bool_decide (normalize raw ∈ FALSE_VALUES) then false
    else d.
Proof.
  intros Hraw. unfold envFlag. rewrite Hraw. cbv zeta.
  destruct (Z.eqb (JS.strlen (normalize raw)) 0) eqn:Hlen; [|done].
  apply strlen_zero in Hlen. rewrite Hlen.
  destruct empty_no_flag as [Ht Hf].
  rewrite !bool_decide_eq_false_2 by done. done.
Qed.

(** C9. [envFlag] is three-way in the trimmed, lowercased value of the
    variable: it returns true whatever the default exactly when that value
    is one of 1, true, yes, y, on; false whatever the default exactly when
    it is one of 0, false, no, n, off; and the default exactly in every
    other case, among them the unset variable and the value that trims to
    the empty string. *)
Theorem envFlag_three_way (env : gmap string string) (name : string) :
  let value := normalize <$> env !! name in
  ((∀ d, envFlag env name d = true) ↔
     ∃ v, value = Some v ∧ v ∈ TRUE_VALUES) ∧
  ((∀ d, envFlag env name d = false) ↔
     ∃ v, value = Some v ∧ v ∈ FALSE_VALUES) ∧
  ((∀ d, envFlag env name d = d) ↔
     (value = None ∨
      ∃ v, value = Some v ∧ (v ∉ TRUE_VALUES) ∧ (v ∉ FALSE_VALUES))) ∧
  (env !! name = None → ∀ d, envFlag env name d = d) ∧
  (∀ raw, env !! name = Some raw → trim raw = "" →
          ∀ d, envFlag env name d = d).
Proof.
  cbv zeta. destruct (env !! name) as [raw|] eqn:Hraw; simpl.
  - assert (Hrun := fun d => envFlag_set env name raw d Hraw).
    pose proof (true_not_false (normalize raw)) as Hdisj.
    repeat split.
    + intros Hall. exists (normalize raw). split; [done|].
      specialize (Hall false). rewrite Hrun in Hall.
      repeat case_bool_decide; done.
    + intros (v & [= <-] & Hv) d. rewrite Hrun.
      by rewrite bool_decide_eq_true_2.
    + intros Hall. exists (normalize raw). split; [done|].
      specialize (Hall true). rewrite Hrun in Hall.
      repeat case_bool_decide; done.
    + intros (v & [= <-] & Hv) d. rewrite Hrun.
      rewrite bool_decide_eq_false_2 by (intros Ht; by apply Hdisj in Ht).
      by rewrite bool_decide_eq_true_2.
    + intros Hall. right. exists (normalize raw). split; [done|].
      pose proof (Hall true) as Ht. pose proof (Hall false) as Hf.
      rewrite Hrun in Ht, Hf.
      repeat case_bool_decide; done.
    + intros [? | (v & [= <-] & Ht & Hf)] d; [done|]. rewrite Hrun.
      by rewrite !bool_decide_eq_false_2.
    + done.
    + intros raw' [= <-] Hempty d. rewrite Hrun.
      unfold normalize. rewrite Hempty. simpl.
      destruct empty_no_flag as [Ht Hf].
      by rewrite !bool_decide_eq_false_2.
  - unfold envFlag. rewrite Hraw. repeat split; try done.
    + intros Hall. specialize (Hall false). done.
    + intros (v & ? & _). done.
    + intros Hall. specialize (Hall true). done.
    + intros (v & ? & _). done.
    + by left.
Qed.

End EnvFlag.

(** ** The access-policy guard *)

Section Guard.
Import JS ToolGuards.

Lemma readOnlyAllowed_elem s :
  s ∈ readOnlyAllowedTools ↔
  s = "quickbase_get_app_info" ∨ s = "quickbase_get_tables"
  ∨ s = "quickbase_test_connection" ∨ s = "quickbase_get_table_info"
  ∨ s = "quickbase_get_table_fields" ∨ s = "quickbase_query_records"
  ∨ s = "quickbase_get_record" ∨ s = "quickbase_search_records"
  ∨ s = "quickbase_get_relationships" ∨ s = "quickbase_get_reports"
  ∨ s = "quickbase_run_report".
Proof. unfold readOnlyAllowedTools. set_unfold. tauto. Qed.

Lemma destructive_elem s :
  s ∈ destructiveTools ↔
  s = "quickbase_delete_table" ∨ s = "quickbase_delete_field"
  ∨ s = "quickbase_delete_record".
Proof. unfold destructiveTools. set_unfold. tauto. Qed.

Lemma confirmationRequired_elem s :
  s ∈ confirmationRequiredTools ↔
  s = "quickbase_create_table" ∨ s = "quickbase_create_field"
  ∨ s = "quickbase_update_field" ∨ s = "quickbase_create_record"
  ∨ s = "quickbase_update_record" ∨ s = "quickbase_bulk_create_records"
  ∨ s = "quickbase_create_relationship".
Proof. unfold confirmationRequiredTools. set_unfold. tauto. Qed.

(** A tool name cannot equal any of the finitely many other names. *)
Ltac other_name H :=
  repeat (destruct H as [H | H]; [discriminate H|]); discriminate H.

Lemma allowed_not_destructive s :
  s ∈ readOnlyAllowedTools → s ∉ destructiveTools.
Proof.
  rewrite readOnlyAllowed_elem, destructive_elem. intros Ha Hd.
  repeat (destruct Ha as [-> | Ha]; [other_name Hd|]).
  subst. other_name Hd.
Qed.

Lemma allowed_not_confirmation s :
  s ∈ readOnlyAllowedTools → s ∉ confirmationRequiredTools.
Proof.
  rewrite readOnlyAllowed_elem, confirmationRequired_elem. intros Ha Hd.
  repeat (destruct Ha as [-> | Ha]; [other_name Hd|]).
  subst. other_name Hd.
Qed.

(** C10. The read-only allowlist shares no tool with the destructive set
    nor with the confirmation-required set, and the guard lets every tool
    of the allowlist through, whatever the two flags and the argument
    bundle. *)
Theorem readOnlyAllowed_never_refused :
  readOnlyAllowedTools ## destructiveTools ∧
  readOnlyAllowedTools ## confirmationRequiredTools ∧
  ∀ name args readOnly allowDestructive,
    name ∈ readOnlyAllowedTools →
    assertToolAllowed name args readOnly allowDestructive = None.
Proof.
  split; [|split].
  - apply elem_of_disjoint. intros s Ha Hd.
    exact (allowed_not_destructive s Ha Hd).
  - apply elem_of_disjoint. intros s Ha Hc.
    exact (allowed_not_confirmation s Ha Hc).
  - intros name args ro ad Ha. unfold assertToolAllowed.
    rewrite (bool_decide_eq_true_2 _ Ha).
    rewrite (bool_decide_eq_false_2 _ (allowed_not_destructive _ Ha)).
    rewrite (bool_decide_eq_false_2 _ (allowed_not_confirmation _ Ha)).
    rewrite andb_false_r. reflexivity.
Qed.

Lemma readOnlyAllowed_never_refused_witness :
  "quickbase_get_record" ∈ readOnlyAllowedTools ∧
  assertToolAllowed "quickbase_get_record"
    (VObject [("tableId", VString "bux123"); ("recordId", VNumber 1)])
    true false = None.
Proof.
  assert (Hin : "quickbase_get_record" ∈ readOnlyAllowedTools)
    by (apply readOnlyAllowed_elem; do 6 right; left; reflexivity).
  split; [exact Hin|].
  exact (proj2 (proj2 readOnlyAllowed_never_refused) _ _ _ _ Hin).
Defined.

End Guard.

(** ** The tool-call handler *)

Section Dispatch.
Import JS ToolGuards Server.

Lemma selectCase_In name l c :
  selectCase name l = Some c → In (name, c) l.
Proof.
  induction l as [|[n c'] l IH]; simpl; [discriminate|].
  destruct (String.eqb name n) eqn:Hn.
  - apply String.eqb_eq in Hn. intros [= ->]. left. by subst.
  - intros H. right. by apply IH.
Qed.

(** [args ?? {}] carries a confirmation exactly when [args] does. *)
Lemma parseArgs_needs_confirm otherMembersOk schema args :
  hasConfirmLiteral schema = true →
  confirmed args = false →
  parseArgs otherMembersOk schema args = false.
Proof.
  intros Hlit Hno. unfold parseArgs. rewrite Hlit.
  destruct args; simpl in *; try done.
  by rewrite Hno.
Qed.

(** The schema-mutating tools that are not destructive parse their
    arguments with a schema that has the [confirm] literal. *)
Lemma mutating_case_confirm name schema m :
  selectCase name cases = Some (schema, m) →
  schemaMutating m = true →
  name ∉ destructiveTools →
  ∃ sch, schema = Some sch ∧ hasConfirmLiteral sch = true.
Proof.
  intros Hsel Hmut Hnd. apply selectCase_In in Hsel.
  rewrite destructive_elem in Hnd.
  unfold cases in Hsel. simpl in Hsel.
  repeat (destruct Hsel as [Hsel | Hsel];
          [injection Hsel as <- <- <-;
           first [discriminate Hmut
                 | by eexists
                 | exfalso; apply Hnd; auto] |]).
  destruct Hsel.
Qed.

(** A client method is reached only past the guard and, where the case
    parses its arguments, past [parseArgs]. *)
Lemma handleToolCall_Invoke otherMembersOk ro ad name args m :
  handleToolCall otherMembersOk ro ad name args = Invoke m →
  assertToolAllowed name args ro ad = None ∧
  ∃ schema, selectCase name cases = Some (schema, m) ∧
            ∀ sch, schema = Some sch →
                   parseArgs otherMembersOk sch args = true.
Proof.
  unfold handleToolCall.
  destruct (assertToolAllowed name args ro ad); [discriminate|].
  destruct (selectCase name cases) as [[[sch|] m']|]; try discriminate.
  - destruct (parseArgs otherMembersOk sch args) eqn:Hp; [|discriminate].
    intros [= ->]. split; [done|]. eexists. split; [done|].
    by intros ? [= <-].
  - intros [= ->]. split; [done|]. eexists. split; [done|]. done.
Qed.

(** C7, as stated, fails: with destructive operations enabled,
    [quickbase_delete_table] changes the schema and runs without a
    confirmation flag. *)
Lemma confirmation_gate_delete_table :
  ¬ confirmation_gate (λ _, False).
Proof.
  intros Hgate.
  destruct (Hgate (λ _ _, true) false true "quickbase_delete_table"
              (VObject [("tableId", VString "bux123")])) as [_ H].
  destruct (H (Some TableIdSchema) deleteTable) as [t Ht];
    [reflexivity | reflexivity | tauto | reflexivity |].
  vm_compute in Ht. discriminate Ht.
Qed.

(** C7, amended. In read-only mode every tool outside the allowlist is
    refused by the guard before its case is selected; every
    schema-mutating tool other than the destructive ones (create table,
    create and update field, create relationship, build relationship, build
    lookup field, build junction table) is refused unless the argument bundle
    carries [confirm = true]; and the destructive ones are refused by the
    guard unless destructive operations are enabled. *)
Theorem confirmation_gate_non_destructive :
  confirmation_gate (λ name, name ∈ destructiveTools) ∧
  ∀ otherMembersOk readOnly name args,
    name ∈ destructiveTools →
    ∃ e, handleToolCall otherMembersOk readOnly false name args
         = Rejected (GuardRefusal e).
Proof.
  split.
  - intros otherOk ro ad name args. split.
    + intros -> Hout. unfold handleToolCall, assertToolAllowed.
      by rewrite (bool_decide_eq_false_2 _ Hout).
    + intros schema m Hsel Hmut Hnd Hno.
      destruct (handleToolCall otherOk ro ad name args) as [t|m'] eqn:Hrun;
        [by eexists|].
      apply handleToolCall_Invoke in Hrun as (_ & schema' & Hsel' & Hparse).
      destruct (mutating_case_confirm name schema m Hsel Hmut Hnd)
        as (sch & -> & Hlit).
      rewrite Hsel in Hsel'. injection Hsel' as <- <-.
      specialize (Hparse sch eq_refl).
      by rewrite (parseArgs_needs_confirm _ _ _ Hlit Hno) in Hparse.
  - intros otherOk ro name args Hd. unfold handleToolCall, assertToolAllowed.
    rewrite (bool_decide_eq_true_2 _ Hd). simpl.
    destruct (ro && _); by eexists.
Qed.

Lemma confirmation_gate_non_destructive_witness :
  ∃ t, handleToolCall (λ _ _, true) false true
         "quickbase_create_junction_table"
         (VObject [("junctionTableName", VString "Orders_Products")])
       = Rejected t.
Proof.
  refine (proj2 (proj1 confirmation_gate_non_destructive (λ _ _, true)
                   false true "quickbase_create_junction_table"
                   (VObject [("junctionTableName",
                              VString "Orders_Products")]))
            (Some CreateJunctionTableSchema) createJunctionTable
            _ _ _ _).
  - reflexivity.
  - reflexivity.
  - rewrite destructive_elem. intros [H | [H | H]]; discriminate H.
  - reflexivity.
Defined.

End Dispatch.

(** ** The request shape validator *)

Section Shape.
Import JS Payload.

(** Induction on a value with the induction hypothesis for the values it
    contains. *)
Lemma Value_nested_ind (P : Value → Prop) :
  P VNull → P VUndefined →
  (∀ s, P (VString s)) → (∀ n, P (VNumber n)) → (∀ b, P (VBool b)) →
  (∀ items, Forall P items → P (VArray items)) →
  (∀ props, Forall (λ kv, P (snd kv)) props → P (VObject props)) →
  (∀ t, P (VOther t)) →
  ∀ v, P v.
Proof.
  intros Hnull Hundef Hstr Hnum Hbool Harr Hobj Hother.
  fix IH 1.
  intros [ | | s | n | b | items | props | t];
    [exact Hnull | exact Hundef | apply Hstr | apply Hnum | apply Hbool
    | | | apply Hother].
  - apply Harr.
    induction items as [|x xs IHxs]; constructor; [apply IH | exact IHxs].
  - apply Hobj.
    induction props as [|[k x] xs IHxs]; constructor;
      [apply IH | exact IHxs].
Qed.

Lemma visit_array items d st :
  visit (VArray items) d st =
    if maxDepth <? d then addIssue NestingTooDeep st
    else if maxArrayLength <? lenZ items then addIssue ArrayTooLarge st
         else visitItems d items st.
Proof.
  cbn [visit]. destruct (maxDepth <? d); [reflexivity|].
  destruct (maxArrayLength <? lenZ items); [reflexivity|].
  revert st. induction items as [|x xs IH]; intros st; cbn [visitItems];
    [reflexivity | apply IH].
Qed.

Lemma visit_object props d st :
  visit (VObject props) d st =
    if maxDepth <? d then addIssue NestingTooDeep st
    else if maxKeysPerObject <? lenZ props then addIssue TooManyKeys st
         else
           let st1 := mkVisit (totalKeys st + lenZ props) (issues st) in
           if maxTotalKeys <? totalKeys st1
           then addIssue TooManyKeysOverall st1
           else visitProps d props st1.
Proof.
  cbn [visit]. destruct (maxDepth <? d); [reflexivity|].
  destruct (maxKeysPerObject <? lenZ props); [reflexivity|].
  cbv zeta.
  destruct (maxTotalKeys <? _); [reflexivity|].
  generalize (mkVisit (totalKeys st + lenZ props) (issues st)).
  induction props as [|[k x] xs IH]; intros st'; cbn [visitProps];
    [reflexivity|].
  destruct (maxKeyLength <? strlen k); [reflexivity | apply IH].
Qed.

Create HintDb shape.

Lemma grows_refl st : grows st st.
Proof. exists []. by rewrite app_nil_r. Qed.

Lemma grows_trans st1 st2 st3 : grows st1 st2 → grows st2 st3 → grows st1 st3.
Proof.
  intros [m1 H1] [m2 H2]. exists (m1 ++ m2). by rewrite H2, H1, app_assoc.
Qed.

Lemma addIssue_flagged i st : flagged st (addIssue i st).
Proof. by exists i, []. Qed.

Lemma flagged_grows st st' : flagged st st' → grows st st'.
Proof. intros (i & more & H). by exists (i :: more). Qed.

Lemma flagged_then st1 st2 st3 :
  flagged st1 st2 → grows st2 st3 → flagged st1 st3.
Proof.
  intros (i & m1 & H1) [m2 H2]. exists i, (m1 ++ m2).
  by rewrite H2, H1, <- app_assoc.
Qed.

Lemma flagged_changes st st' : flagged st st' → issues st' ≠ issues st.
Proof.
  intros (i & more & H) Heq. rewrite Heq in H.
  apply (f_equal length) in H. rewrite length_app in H. simpl in H. lia.
Qed.

#[local] Hint Resolve grows_refl addIssue_flagged flagged_grows : shape.

Lemma visitItems_grows d items :
  Forall (λ x, ∀ d st, grows st (visit x d st)) items →
  ∀ st, grows st (visitItems d items st).
Proof.
  induction 1 as [|x xs Hx _ IHxs]; intros st; cbn [visitItems];
    [auto with shape|].
  eapply grows_trans; [apply Hx | apply IHxs].
Qed.

Lemma visitProps_grows d (props : list (string * Value)) :
  Forall (λ kv, ∀ d st, grows st (visit (snd kv) d st)) props →
  ∀ st, grows st (visitProps d props st).
Proof.
  induction 1 as [|[k x] xs Hx _ IHxs]; intros st; cbn [visitProps];
    [auto with shape|].
  case_match; [auto with shape|].
  eapply grows_trans; [apply Hx | apply IHxs].
Qed.

Lemma visit_grows v : ∀ d st, grows st (visit v d st).
Proof.
  induction v as [ | | s | n | b | items IH | props IH | t]
    using Value_nested_ind; intros d st.
  1-5, 8: cbn [visit]; repeat (case_match; auto with shape).
  - rewrite visit_array. repeat (case_match; auto with shape).
    by apply visitItems_grows.
  - rewrite visit_object. cbv zeta.
    repeat (case_match; auto with shape).
    + apply flagged_grows. exists TooManyKeysOverall, []. done.
    + eapply grows_trans; [|by apply visitProps_grows].
      exists []. by rewrite app_nil_r.
Qed.

(** *** Counting keys *)

Lemma ownKeys_sum_app l1 l2 :
  fold_right (λ n acc, ownKeys n + acc) 0 (l1 ++ l2) =
  fold_right (λ n acc, ownKeys n + acc) 0 l1
  + fold_right (λ n acc, ownKeys n + acc) 0 l2.
Proof. induction l1 as [|x l1 IH]; simpl; lia. Qed.

Lemma ownKeys_sum_concat (l : list Value) :
  fold_right (λ n acc, ownKeys n + acc) 0 (concat (map nodes l)) =
  keyCountAll l.
Proof.
  induction l as [|x l IH]; simpl; [done|].
  rewrite ownKeys_sum_app, IH. done.
Qed.

Lemma keyCount_array items : keyCount (VArray items) = keyCountAll items.
Proof.
  unfold keyCount. cbn [nodes fold_right ownKeys].
  rewrite ownKeys_sum_concat. lia.
Qed.

Lemma keyCount_object props :
  keyCount (VObject props) = lenZ props + keyCountAll (map snd props).
Proof.
  unfold keyCount. cbn [nodes fold_right ownKeys].
  rewrite <- ownKeys_sum_concat, map_map. done.
Qed.

Lemma ownKeys_nonneg v : 0 <= ownKeys v.
Proof. destruct v; simpl; unfold lenZ; lia. Qed.

Lemma keyCount_nonneg v : 0 <= keyCount v.
Proof.
  unfold keyCount. induction (nodes v) as [|x l IH]; simpl; [lia|].
  pose proof (ownKeys_nonneg x). lia.
Qed.

Lemma keyCountAll_nonneg l : 0 <= keyCountAll l.
Proof.
  induction l as [|x l IH]; simpl; [lia|].
  pose proof (keyCount_nonneg x). lia.
Qed.

(** *** What one visit does *)

(** Case analysis on the comparisons of the goal. *)
Ltac compare :=
  repeat match goal with
    | |- context [?a <? ?b] => destruct (Z.ltb_spec a b)
    | |- context [?a <=? ?b] => destruct (Z.leb_spec a b)
    end.

Lemma verdict_leaf (v : Value) d st :
  keyCount v = 0 →
  totalKeys st <= maxTotalKeys →
  verdict ((d <=? maxDepth) && true
           && (totalKeys st + keyCount v <=? maxTotalKeys)) (keyCount v) st
          (if maxDepth <? d then addIssue NestingTooDeep st else st).
Proof.
  intros -> Hst. compare; try lia; simpl; auto with shape.
  destruct st; simpl. f_equal. lia.
Qed.

Lemma visitItems_verdict d items :
  Forall visit_verdict_at items →
  ∀ st, totalKeys st <= maxTotalKeys →
    verdict (forallb (fits (d + 1)) items
             && (totalKeys st + keyCountAll items <=? maxTotalKeys))
            (keyCountAll items) st (visitItems d items st).
Proof.
  induction 1 as [|x xs Hx Hxs IHxs]; intros st Hst;
    cbn [visitItems forallb keyCountAll fold_right].
  - compare; try lia. simpl. destruct st; simpl. f_equal. lia.
  - fold (keyCountAll xs).
    pose proof (keyCount_nonneg x) as Hkx.
    pose proof (keyCountAll_nonneg xs) as Hkxs.
    specialize (Hx (d + 1) st Hst). unfold verdict in Hx.
    destruct (fits (d + 1) x); simpl in Hx |- *.
    + destruct (Z.leb_spec (totalKeys st + keyCount x) maxTotalKeys)
        as [Hle | Hgt].
      * rewrite Hx. specialize (IHxs (mkVisit (totalKeys st + keyCount x)
                                              (issues st)) Hle).
        simpl in IHxs. unfold verdict in IHxs |- *.
        replace (totalKeys st + (keyCount x + keyCountAll xs))
          with (totalKeys st + keyCount x + keyCountAll xs) by lia.
        destruct (forallb (fits (d + 1)) xs
                  && (totalKeys st + keyCount x + keyCountAll xs
                      <=? maxTotalKeys)); [exact IHxs|].
        destruct IHxs as (i & more & Hi). by exists i, more.
      * assert (Hflag : flagged st (visitItems d xs (visit x (d + 1) st))).
        { eapply flagged_then; [exact Hx|].
          apply visitItems_grows.
          eapply Forall_impl; [exact Hxs|]. intros; apply visit_grows. }
        unfold verdict. compare; try lia. by rewrite andb_false_r.
    + eapply flagged_then; [exact Hx|].
      apply visitItems_grows.
      eapply Forall_impl; [exact Hxs|]. intros; apply visit_grows.
Qed.

Lemma visitProps_verdict d (props : list (string * Value)) :
  Forall (λ kv, visit_verdict_at (snd kv)) props →
  ∀ st, totalKeys st <= maxTotalKeys →
    verdict (forallb (λ kv, (strlen (fst kv) <=? maxKeyLength)
                            && fits (d + 1) (snd kv)) props
             && (totalKeys st + keyCountAll (map snd props) <=? maxTotalKeys))
            (keyCountAll (map snd props)) st (visitProps d props st).
Proof.
  induction 1 as [|[k x] xs Hx Hxs IHxs]; intros st Hst;
    cbn [visitProps forallb keyCountAll fold_right map fst snd].
  - compare; try lia. simpl. destruct st; simpl. f_equal. lia.
  - fold (keyCountAll (map snd xs)).
    pose proof (keyCount_nonneg x) as Hkx.
    pose proof (keyCountAll_nonneg (map snd xs)) as Hkxs.
    assert (Hrest : ∀ st', grows st' (visitProps d xs st')).
    { apply visitProps_grows.
      eapply Forall_impl; [exact Hxs|]. intros; apply visit_grows. }
    destruct (Z.ltb_spec maxKeyLength (strlen k)) as [Hlong | Hshort].
    { destruct (Z.leb_spec (strlen k) maxKeyLength); [lia|].
      simpl. auto with shape. }
    destruct (Z.leb_spec (strlen k) maxKeyLength); [|lia].
    cbn [andb]. simpl in Hx.
    specialize (Hx (d + 1) st Hst). unfold verdict in Hx.
    destruct (fits (d + 1) x); simpl in Hx |- *.
    + destruct (Z.leb_spec (totalKeys st + keyCount x) maxTotalKeys)
        as [Hle | Hgt].
      * rewrite Hx. specialize (IHxs (mkVisit (totalKeys st + keyCount x)
                                              (issues st)) Hle).
        simpl in IHxs. unfold verdict in IHxs |- *.
        replace (totalKeys st + (keyCount x + keyCountAll (map snd xs)))
          with (totalKeys st + keyCount x + keyCountAll (map snd xs)) by lia.
        destruct (forallb _ xs && _); [exact IHxs|].
        destruct IHxs as (i & more & Hi). by exists i, more.
      * assert (Hflag : flagged st (visitProps d xs (visit x (d + 1) st)))
          by (eapply flagged_then; [exact Hx | apply Hrest]).
        unfold verdict. compare; try lia. by rewrite andb_false_r.
    + eapply flagged_then; [exact Hx | apply Hrest].
Qed.

Lemma visit_verdict v : visit_verdict_at v.
Proof.
  induction v as [ | | s | n | b | items IH | props IH | t]
    using Value_nested_ind; intros d st Hst.
  1-2, 4-5: cbn [visit fits]; by apply verdict_leaf.
  - cbn [visit fits].
    change (keyCount (VString s)) with 0.
    compare; try lia; simpl; auto with shape.
    destruct st; simpl. f_equal. lia.
  - rewrite visit_array, keyCount_array. cbn [fits].
    pose proof (keyCountAll_nonneg items).
    destruct (Z.ltb_spec maxDepth d);
      [destruct (Z.leb_spec d maxDepth); [lia|]; simpl; auto with shape|].
    destruct (Z.leb_spec d maxDepth); [|lia].
    destruct (Z.ltb_spec maxArrayLength (lenZ items));
      [destruct (Z.leb_spec (lenZ items) maxArrayLength); [lia|];
       simpl; auto with shape|].
    destruct (Z.leb_spec (lenZ items) maxArrayLength); [|lia].
    cbn [andb]. by apply visitItems_verdict.
  - rewrite visit_object, keyCount_object. cbn [fits]. cbv zeta.
    pose proof (keyCountAll_nonneg (map snd props)).
    assert (0 <= lenZ props) by (unfold lenZ; lia).
    destruct (Z.ltb_spec maxDepth d);
      [destruct (Z.leb_spec d maxDepth); [lia|]; simpl; auto with shape|].
    destruct (Z.leb_spec d maxDepth); [|lia].
    destruct (Z.ltb_spec maxKeysPerObject (lenZ props));
      [destruct (Z.leb_spec (lenZ props) maxKeysPerObject); [lia|];
       simpl; auto with shape|].
    destruct (Z.leb_spec (lenZ props) maxKeysPerObject); [|lia].
    cbn [andb totalKeys].
    destruct (Z.ltb_spec maxTotalKeys (totalKeys st + lenZ props)).
    + destruct (Z.leb_spec
                  (totalKeys st + (lenZ props + keyCountAll (map snd props)))
                  maxTotalKeys); [lia|].
      rewrite andb_false_r. exists TooManyKeysOverall, []. done.
    + pose proof (visitProps_verdict d props IH
                    (mkVisit (totalKeys st + lenZ props) (issues st))) as Hv.
      simpl in Hv. specialize (Hv ltac:(lia)).
      unfold verdict in Hv |- *.
      replace (totalKeys st + (lenZ props + keyCountAll (map snd props)))
        with (totalKeys st + lenZ props + keyCountAll (map snd props)) by lia.
      destruct (forallb _ props && _); [exact Hv|].
      destruct Hv as (i & more & Hi). by exists i, more.
  - cbn [visit fits]. rewrite andb_false_r. simpl.
    destruct (maxDepth <? d); auto with shape.
Qed.

(** *** The visit against the limits on the whole payload *)

Lemma depth_fold {A} (f : A → Z) (l : list A) d m :
  d + fold_right (λ x acc, Z.max (1 + f x) acc) 0 l <= m ↔
  d <= m ∧ Forall (λ x, d + 1 + f x <= m) l.
Proof.
  induction l as [|x l IH]; cbn [fold_right].
  - rewrite Forall_nil. split; [intros; split; [lia | exact I] | lia].
  - rewrite Forall_cons. split.
    + intros H. assert (H' : d + fold_right
                                   (λ x acc, Z.max (1 + f x) acc) 0 l <= m)
        by lia.
      apply IH in H' as [? ?]. repeat split; [lia | lia | done].
    + intros (? & ? & Hl). assert (H' : d <= m ∧ Forall
                                      (λ x, d + 1 + f x <= m) l) by done.
      apply IH in H'. lia.
Qed.

Lemma fitsAll_limits d items :
  Forall fits_limits_at items →
  forallb (fits (d + 1)) items = true ↔
  Forall (λ x, d + 1 + nestingDepth x <= maxDepth) items
  ∧ Forall nodeWithinLimits (concat (map nodes items)).
Proof.
  induction 1 as [|x xs Hx _ IH]; cbn [forallb map concat].
  - by rewrite !Forall_nil.
  - rewrite andb_true_iff, !Forall_cons, Forall_app, (Hx (d + 1)), IH.
    tauto.
Qed.

Lemma fitsProps_limits d (props : list (string * Value)) :
  Forall (λ kv, fits_limits_at (snd kv)) props →
  forallb (λ kv, (strlen (fst kv) <=? maxKeyLength)
                 && fits (d + 1) (snd kv)) props = true ↔
  Forall (λ kv, strlen (fst kv) <= maxKeyLength) props
  ∧ Forall (λ kv, d + 1 + nestingDepth (snd kv) <= maxDepth) props
  ∧ Forall nodeWithinLimits (concat (map (λ kv, nodes (snd kv)) props)).
Proof.
  induction 1 as [|[k x] xs Hx _ IH]; cbn [forallb map concat fst snd].
  - by rewrite !Forall_nil.
  - simpl in Hx.
    rewrite !andb_true_iff, !Forall_cons, Forall_app, (Hx (d + 1)), IH,
      Z.leb_le.
    cbn [fst snd]. tauto.
Qed.

Lemma fits_limits v : fits_limits_at v.
Proof.
  induction v as [ | | s | n | b | items IH | props IH | t]
    using Value_nested_ind; intros d; cbn [fits nestingDepth nodes].
  1-2, 4-5:
    rewrite andb_true_r, Z.leb_le, Forall_cons, Forall_nil; simpl;
    split; [intros; split; [lia | done] | intros [? _]; lia].
  - rewrite andb_true_iff, !Z.leb_le, Forall_cons, Forall_nil. simpl.
    split; [intros [? ?]; split; [lia | done] | intros [? [? _]]; split; lia].
  - rewrite !andb_true_iff, !Z.leb_le, Forall_cons, (fitsAll_limits d items IH),
      depth_fold. simpl. tauto.
  - rewrite !andb_true_iff, !Z.leb_le, Forall_cons,
      (fitsProps_limits d props IH),
      (depth_fold (λ kv : string * Value, nestingDepth (snd kv))).
    simpl. tauto.
  - rewrite andb_false_r, Forall_cons. simpl. split; [done | tauto].
Qed.




Lemma validate_clean_iff payload :
  validateFieldPayload payload = [] ↔ withinLimits payload.
Proof.
  unfold validateFieldPayload, withinLimits.
  pose proof (visit_verdict payload 0 (mkVisit 0 [])) as Hv.
  simpl in Hv. specialize (Hv ltac:(unfold maxTotalKeys; lia)).
  pose proof (fits_limits payload 0) as Hfits. simpl in Hfits.
  unfold verdict in Hv. rewrite !Z.add_0_l in *.
  destruct (fits 0 payload) eqn:Hf; simpl in Hv.
  - destruct (Z.leb_spec (keyCount payload) maxTotalKeys) as [Hle | Hgt].
    + rewrite Hv. simpl. split; [intros _ | done].
      destruct Hfits as [Hfits _]. destruct (Hfits eq_refl). done.
    + destruct Hv as (i & more & ->). simpl.
      split; [discriminate | intros (_ & ? & _); lia].
  - destruct Hv as (i & more & ->). simpl.
    split; [discriminate|]. intros (? & _ & ?).
    destruct Hfits as [_ Hfits]. by discriminate Hfits.
Qed.







End Shape.

(** ** The relationship orchestrator *)

Section Builders.
Import Orchestrator.
Context {S : Type} (remote : Remote S).

Implicit Types w : @World S.

(** What one remote call leaves behind. *)
Lemma issue_inv {A} (c : Call) (op : S → Result A * S) (inj : A → Reply)
      w r w' :
  issue c op inj w = (r, w') →
  op (service w) = (r, service w')
  ∧ log w' = log w ++ [mkEvent c match r with
                                 | Ok a => inj a
                                 | Failed e => RError e
                                 end].
Proof.
  unfold issue. destruct (op (service w)) as [r0 s']. intros [= <- <-]. done.
Qed.

Lemma bind_Ok {A B} (m : @M S A) (k : A → @M S B) w b w' :
  bind m k w = (Ok b, w') →
  ∃ a w1, m w = (Ok a, w1) ∧ k a w1 = (Ok b, w').
Proof.
  unfold bind. destruct (m w) as [[a|e] w1]; [|discriminate].
  intros H. by exists a, w1.
Qed.

Lemma createField_Ok t spec w id w' :
  remoteCreateField remote t spec w = (Ok id, w') →
  log w' = log w ++ [fieldCreated t spec id].
Proof. intros H. by apply issue_inv in H as [_ ->]. Qed.


Lemma createLookups_Ok parent child refId specs :
  ∀ w ids w',
    createLookups remote parent child refId specs w = (Ok ids, w') →
    length ids = length specs
    ∧ log w' = log w ++ zip_with (λ s id, fieldCreated child
                                           (lookupField parent refId s) id)
                          specs ids.
Proof.
  induction specs as [|s specs IH]; intros w ids w' H; cbn [createLookups] in H.
  - injection H as <- <-. by rewrite app_nil_r.
  - apply bind_Ok in H as (id & w1 & H1 & H).
    apply bind_Ok in H as (rest & w2 & H2 & H).
    injection H as <- <-.
    apply createField_Ok in H1. apply IH in H2 as [Hlen H2].
    split; [simpl; by rewrite Hlen|].
    rewrite H2, H1, <- app_assoc. done.
Qed.


Lemma createAdvancedRelationship_Ok parent child label lookupSpecs kind
      w r w' :
  createAdvancedRelationship remote parent child label lookupSpecs kind w
  = (Ok r, w') →
  length (lookupFieldIds r) = length (default [] lookupSpecs)
  ∧ log w' = log w ++ relationshipEvents parent child label
                        (default [] lookupSpecs) r.
Proof.
  unfold createAdvancedRelationship. intros H.
  apply bind_Ok in H as (refId & w1 & H1 & H).
  apply bind_Ok in H as (ids & w2 & H2 & H).
  injection H as <- <-.
  apply createField_Ok in H1. apply createLookups_Ok in H2 as [Hlen H2].
  split; [done|]. rewrite H2, H1, <- app_assoc. done.
Qed.


(** *** Calls issued, whether the method resolves or rejects *)

Lemma bounded_ret {A} P (a : A) : bounded 0 P (ret (S := S) a).
Proof. intros w. exists []. simpl. by rewrite app_nil_r. Qed.

Lemma bounded_issue {A} (P : Call → Prop) c (op : S → Result A * S) inj :
  P c → bounded 1 P (issue c op inj).
Proof.
  intros Hc w. unfold issue. destruct (op (service w)) as [r s'].
  eexists [_]. simpl. split; [done|]. split; [lia|]. by constructor.
Qed.

Lemma bounded_bind {A B} n k P (m : @M S A) (f : A → @M S B) :
  bounded n P m → (∀ a, bounded k P (f a)) → bounded (n + k) P (bind m f).
Proof.
  intros Hm Hf w. destruct (Hm w) as (evs1 & Hlog1 & Hlen1 & Hall1).
  unfold bind. destruct (m w) as [[a|e] w1]; simpl in *.
  - destruct (Hf a w1) as (evs2 & Hlog2 & Hlen2 & Hall2).
    exists (evs1 ++ evs2). rewrite Hlog2, Hlog1, <- app_assoc.
    split; [done|]. rewrite length_app. split; [lia|].
    by apply Forall_app.
  - exists evs1. split; [done|]. split; [lia | done].
Qed.

Lemma bounded_attempt {A} n P (m : @M S A) :
  bounded n P m → bounded n P (attempt m).
Proof.
  intros Hm w. destruct (Hm w) as (evs & Hlog & Hlen & Hall).
  unfold attempt. destruct (m w) as [r w1]. by exists evs.
Qed.

Lemma bounded_weaken {A} n n' P (m : @M S A) :
  (n ≤ n')%nat → bounded n P m → bounded n' P m.
Proof.
  intros Hn Hm w. destruct (Hm w) as (evs & Hlog & Hlen & Hall).
  exists evs. split; [done|]. split; [lia | done].
Qed.















Lemma bounded_validateRelationship parent child fk :
  bounded 5 (λ c, isRead c = true)
          (validateRelationship remote parent child fk).
Proof.
  unfold validateRelationship.
  apply (bounded_bind 1 4);
    [by apply bounded_attempt, bounded_issue|]. intros p.
  apply (bounded_bind 1 3);
    [by apply bounded_attempt, bounded_issue|]. intros c.
  apply (bounded_bind 1 2);
    [by apply bounded_attempt, bounded_issue|]. intros fs.
  cbv zeta. case_match.
  - apply (bounded_bind 1 1); [by apply bounded_issue|]. intros crows.
    apply (bounded_bind 1 0); [by apply bounded_issue|]. intros prows.
    apply bounded_ret.
  - apply (bounded_weaken 0); [lia|]. apply bounded_ret.
Qed.


(** *** The reads of the validator leave a read-preserving service alone *)

Lemma preserves_ret {A} (a : A) : preserves (ret (S := S) a).
Proof. by intros w. Qed.

Lemma preserves_bind {A B} (m : @M S A) (f : A → @M S B) :
  preserves m → (∀ a, preserves (f a)) → preserves (bind m f).
Proof.
  intros Hm Hf w. specialize (Hm w). unfold bind.
  destruct (m w) as [[a|e] w1]; simpl in *; [|done].
  by rewrite Hf.
Qed.

Lemma preserves_attempt {A} (m : @M S A) : preserves m → preserves (attempt m).
Proof.
  intros Hm w. specialize (Hm w). unfold attempt. by destruct (m w).
Qed.

Lemma preserves_issue {A} c (op : S → Result A * S) inj :
  (∀ s, (op s).2 = s) → preserves (issue c op inj).
Proof.
  intros Hop w. unfold issue. specialize (Hop (service w)).
  by destruct (op (service w)).
Qed.

Lemma preserves_validateRelationship parent child fk :
  readsPreserve remote →
  preserves (validateRelationship remote parent child fk).
Proof.
  intros (Hinfo & Hfields & Hrows). unfold validateRelationship.
  apply preserves_bind; [by apply preserves_attempt, preserves_issue|].
  intros p.
  apply preserves_bind; [by apply preserves_attempt, preserves_issue|].
  intros c.
  apply preserves_bind; [by apply preserves_attempt, preserves_issue|].
  intros fs. cbv zeta. case_match; [|apply preserves_ret].
  apply preserves_bind; [by apply preserves_issue|]. intros crows.
  apply preserves_bind; [by apply preserves_issue|]. intros prows.
  apply preserves_ret.
Qed.

(** *** The order of the calls *)









(** *** The journal of the service and the log of the client *)

Lemma journalKept_ret {A} (a : A) :
  journalKept (ret (S := S * list Event) a).
Proof. intros u. exists []. simpl. by rewrite !app_nil_r. Qed.

Lemma journalKept_bind {A B} (m : @M (S * list Event) A)
      (f : A → @M (S * list Event) B) :
  journalKept m → (∀ a, journalKept (f a)) → journalKept (bind m f).
Proof.
  intros Hm Hf u. destruct (Hm u) as (evs1 & Hlog1 & Hj1).
  unfold bind. destruct (m u) as [[a|e] u1]; simpl in *.
  - destruct (Hf a u1) as (evs2 & Hlog2 & Hj2).
    exists (evs1 ++ evs2).
    by rewrite Hlog2, Hlog1, Hj2, Hj1, <- !app_assoc.
  - by exists evs1.
Qed.

Lemma journalKept_journalled {A} c inj (op : S → Result A * S) :
  journalKept (issue c (journalled c inj op) inj).
Proof.
  intros [[s j] l]. unfold issue, journalled. simpl.
  destruct (op s) as [r s']. simpl. by eexists.
Qed.

Lemma journalKept_createLookups parent child refId specs :
  journalKept (createLookups (recording remote) parent child refId specs).
Proof.
  induction specs as [|sp specs IH]; cbn [createLookups].
  - apply journalKept_ret.
  - apply journalKept_bind; [apply journalKept_journalled|]. intros id.
    apply journalKept_bind; [exact IH|]. intros ids. apply journalKept_ret.
Qed.


Lemma journalKept_createAdvancedRelationship parent child label lookupSpecs
      kind :
  journalKept (createAdvancedRelationship (recording remote) parent child
                 label lookupSpecs kind).
Proof.
  unfold createAdvancedRelationship.
  apply journalKept_bind; [apply journalKept_journalled|]. intros refId.
  apply journalKept_bind; [apply journalKept_createLookups|]. intros ids.
  apply journalKept_ret.
Qed.


(** *** The journal changes nothing of a run *)

Lemma observes_ret {A} (a : A) :
  observes (ret (S := S * list Event) a) (ret (S := S) a).
Proof. by intros u w Hs. Qed.

Lemma observes_bind {A B} (m' : @M (S * list Event) A) (m : @M S A)
      (f' : A → @M (S * list Event) B) (f : A → @M S B) :
  observes m' m → (∀ a, observes (f' a) (f a)) →
  observes (bind m' f') (bind m f).
Proof.
  intros Hm Hf u w Hs. destruct (Hm u w Hs) as [Hr Hs1]. unfold bind.
  destruct (m' u) as [r' u1], (m w) as [r w1]. simpl in Hr, Hs1. subst r'.
  destruct r as [a|e]; [by apply Hf | done].
Qed.

Lemma observes_journalled {A} c inj (op : S → Result A * S) :
  observes (issue c (journalled c inj op) inj) (issue c op inj).
Proof.
  intros [[s j] l] w Hs. simpl in Hs. subst s.
  unfold issue, journalled. simpl. by destruct (op (service w)).
Qed.

Lemma observes_createLookups parent child refId specs :
  observes (createLookups (recording remote) parent child refId specs)
           (createLookups remote parent child refId specs).
Proof.
  induction specs as [|sp specs IH]; cbn [createLookups].
  - apply observes_ret.
  - apply observes_bind; [apply observes_journalled|]. intros id.
    apply observes_bind; [exact IH|]. intros ids. apply observes_ret.
Qed.


Lemma observes_createAdvancedRelationship parent child label lookupSpecs
      kind :
  observes (createAdvancedRelationship (recording remote) parent child
              label lookupSpecs kind)
           (createAdvancedRelationship remote parent child label lookupSpecs
              kind).
Proof.
  unfold createAdvancedRelationship.
  apply observes_bind; [apply observes_journalled|]. intros refId.
  apply observes_bind; [apply observes_createLookups|]. intros ids.
  apply observes_ret.
Qed.


Lemma served_outcome {A} (m' : @M (S * list Event) A) (m : @M S A) s :
  observes m' m → (served m' s).1 = (run m s).1.
Proof.
  intros Hm. unfold served, run.
  destruct (Hm (mkWorld (s, []) []) (mkWorld s []) eq_refl) as [Hr _].
  by destruct (m' (mkWorld (s, []) [])).
Qed.

(** The journal after a run from an empty journal is the log of the
    run. *)
Lemma served_log {A} (m : @M (S * list Event) A) s :
  journalKept m →
  served m s = ((run m (s, [])).1, log (run m (s, [])).2).
Proof.
  intros Hm. unfold served, run.
  destruct (Hm (mkWorld (s, []) [])) as (evs & Hlog & Hj).
  destruct (m (mkWorld (s, []) [])) as [r u']. simpl in *.
  by rewrite Hj, Hlog.
Qed.

End Builders.

Section Claims.
Import Orchestrator.
Context {S : Type} (remote : Remote S).

Implicit Types w : @World S.

(** C1. When the relationship builder resolves, the service has received
    the reference field creation and then one lookup field creation per
    entry of [lookupSpecs], nothing else; [lookupFieldIds] has as many
    entries as [lookupSpecs], its i-th entry is the identifier the service
    answered to the lookup field creation for the i-th spec, and it is
    empty when [lookupSpecs] is empty or omitted. *)
Theorem lookupFieldIds_assigned_in_order
        parent child label lookupSpecs kind s r calls :
  served (createAdvancedRelationship (recording remote) parent child label
            lookupSpecs kind) s = (Ok r, calls) →
  (run (createAdvancedRelationship remote parent child label lookupSpecs
          kind) s).1 = Ok r
  ∧ calls = relationshipEvents parent child label (default [] lookupSpecs) r
  ∧ length (lookupFieldIds r) = length (default [] lookupSpecs)
  ∧ (∀ i spec,
       default [] lookupSpecs !! i = Some spec →
       ∃ id, lookupFieldIds r !! i = Some id
             ∧ calls !! (1 + i)%nat
               = Some (fieldCreated child
                         (lookupField parent (referenceFieldId r) spec) id))
  ∧ (lookupSpecs = None ∨ lookupSpecs = Some [] → lookupFieldIds r = []).
Proof.
  intros Hserved. split.
  { rewrite <- (served_outcome _ _ s
                  (observes_createAdvancedRelationship remote parent child
                     label lookupSpecs kind)).
    by rewrite Hserved. }
  revert Hserved.
  rewrite served_log by apply journalKept_createAdvancedRelationship.
  unfold run.
  destruct (createAdvancedRelationship (recording remote) parent child label
              lookupSpecs kind (mkWorld (s, []) [])) as [r' u'] eqn:Hrun.
  simpl. intros [= -> <-].
  apply createAdvancedRelationship_Ok in Hrun as [Hlen Hlog].
  simpl in Hlog. split; [exact Hlog|]. split; [exact Hlen|]. split.
  - intros i spec Hspec.
    destruct (lookup_lt_is_Some_2 (lookupFieldIds r) i) as [id Hid].
    { rewrite Hlen. by eapply lookup_lt_Some. }
    exists id. split; [exact Hid|].
    rewrite Hlog. unfold relationshipEvents. simpl.
    by rewrite lookup_zip_with, Hspec, Hid.
  - intros Hnone. apply nil_length_inv. rewrite Hlen.
    by destruct Hnone as [-> | ->].
Qed.




(** C6. Whatever its checks find, the validator issues read calls only
    (table info, field list, record query), never a creation, at most five
    of them; on a service whose reads change nothing, it leaves the service
    as it found it. *)
Theorem validateRelationship_reads_only parent child foreignKeyFieldId w :
  let run := validateRelationship remote parent child foreignKeyFieldId w in
  (∃ evs, log run.2 = log w ++ evs
          ∧ (length evs ≤ 5)%nat
          ∧ Forall (λ e, isRead (call e) = true) evs)
  ∧ (readsPreserve remote → service run.2 = service w).
Proof.
  cbv zeta. split.
  - apply bounded_validateRelationship.
  - intros Hreads. by apply preserves_validateRelationship.
Qed.

End Claims.

(** ** The validator on the table service *)

Section Validator.
Import Orchestrator.

Lemma fieldIssues_nil fk fs :
  fieldIssues fk (Ok fs) = [] ↔
  ∃ f, f ∈ fs ∧ fieldId f = fk ∧ kind (fieldSpec f) = "reference".
Proof.
  unfold fieldIssues.
  destruct (List.filter (λ f, fieldId f =? fk) fs) as [|c cs] eqn:Hcand.
  - split; [discriminate|]. intros (f & Hin & Hid & _). exfalso.
    assert (Hf : In f (List.filter (λ f, fieldId f =? fk) fs)).
    { apply filter_In. split; [by apply list_elem_of_In|]. by apply Z.eqb_eq. }
    rewrite Hcand in Hf. destruct Hf.
  - rewrite <- Hcand.
    destruct (existsb isReference _) eqn:Hex.
    + split; [intros _ | done].
      apply existsb_exists in Hex as (f & Hin & Href).
      apply filter_In in Hin as [Hin Hid].
      exists f. split; [by apply list_elem_of_In|].
      split; [by apply Z.eqb_eq | by apply String.eqb_eq].
    + split; [discriminate|]. intros (f & Hin & Hid & Hkind). exfalso.
      assert (existsb isReference (List.filter (λ f, fieldId f =? fk) fs)
              = true); [|congruence].
      apply existsb_exists. exists f. split.
      * apply filter_In. split; [by apply list_elem_of_In|].
        by apply Z.eqb_eq.
      * by apply String.eqb_eq.
Qed.

Lemma isOrphan_false fk prows r :
  isOrphan fk prows r = false ↔
  ∀ v, values r !! fk = Some v → ∃ p, p ∈ prows ∧ recordId p = v.
Proof.
  unfold isOrphan. destruct (values r !! fk) as [v|].
  - rewrite negb_false_iff, existsb_exists. split.
    + intros (p & Hin & Heq) v' [= <-]. exists p.
      split; [by apply list_elem_of_In | by apply Z.eqb_eq].
    + intros H. destruct (H v eq_refl) as (p & Hin & Heq). exists p.
      split; [by apply list_elem_of_In | by apply Z.eqb_eq].
  - split; [intros _ v [=] | done].
Qed.

Lemma no_orphans fk prows crows :
  recordId <$> List.filter (isOrphan fk prows) crows = [] ↔
  ∀ r v, r ∈ crows → values r !! fk = Some v →
         ∃ p, p ∈ prows ∧ recordId p = v.
Proof.
  split.
  - intros Hnil r v Hin. apply fmap_nil_inv in Hnil.
    apply isOrphan_false.
    destruct (isOrphan fk prows r) eqn:Ho; [|done]. exfalso.
    assert (Hf : In r (List.filter (isOrphan fk prows) crows))
      by (apply filter_In; split; [by apply list_elem_of_In | done]).
    rewrite Hnil in Hf. destruct Hf.
  - intros Hall.
    destruct (List.filter (isOrphan fk prows) crows) as [|r rs] eqn:Hf;
      [done|]. exfalso.
    assert (Hin : In r (List.filter (isOrphan fk prows) crows))
      by (rewrite Hf; by left).
    apply filter_In in Hin as [Hin Ho].
    assert (isOrphan fk prows r = false); [|congruence].
    apply isOrphan_false. intros v. apply Hall. by apply list_elem_of_In.
Qed.

Lemma orphanIssues_nil l : orphanIssues l = [] ↔ l = [].
Proof. by destruct l. Qed.

(** A read on the table service. *)
Lemma read_store {A} c (f : string → Table → A) inj t (w : @World Store) :
  issue c (storeRead f t) inj w =
  match tables (service w) !! t with
  | Some tb => (Ok (f t tb), mkWorld (service w)
                               (log w ++ [mkEvent c (inj (f t tb))]))
  | None => (notFound t, mkWorld (service w)
                           (log w ++ [mkEvent c (RError
                                        ("table not found: " +:+ t))]))
  end.
Proof. unfold issue, storeRead. by destruct (tables (service w) !! t). Qed.

Lemma storeRemote_readsPreserve : readsPreserve storeRemote.
Proof.
  repeat split; intros t s; simpl; unfold storeRead;
    by destruct (tables s !! t).
Qed.

(** C2. On a table service the validator resolves, and it reports
    [isValid = true] with no issue exactly when the parent table exists,
    the child table exists, the foreign key is a field of the child table
    of kind reference, and no child record points at a missing parent
    record; in every other case [isValid] is false and there is an issue. *)
Theorem validateRelationship_valid_iff
        (s : Store) (parentTableId childTableId : string)
        (foreignKeyFieldId : Z) :
  ∃ v w',
    run (validateRelationship storeRemote parentTableId childTableId
           foreignKeyFieldId) s = (Ok v, w')
    ∧ ((isValid v = true ∧ issues v = [])
       ↔ relationshipIntact s parentTableId childTableId foreignKeyFieldId)
    ∧ (¬ relationshipIntact s parentTableId childTableId foreignKeyFieldId
       → isValid v = false ∧ issues v ≠ []).
Proof.
  unfold run, validateRelationship, bind, attempt, remoteGetTableInfo,
    remoteGetTableFields, remoteQueryRecords, relationshipIntact.
  cbn [storeRemote getTableInfo getTableFields queryRecords].
  destruct (tables s !! parentTableId) as [pt|] eqn:Hp;
    destruct (tables s !! childTableId) as [ct|] eqn:Hc;
    do 3 (rewrite read_store; cbn [service log]; rewrite ?Hp, ?Hc);
    cbn [parentIssues childIssues app isEmpty].
  - destruct (fieldIssues foreignKeyFieldId (Ok (fields ct))) as [|i is']
      eqn:Hfield; cbn [isEmpty].
    + do 2 (rewrite read_store; cbn [service log]; rewrite ?Hp, ?Hc).
      apply fieldIssues_nil in Hfield.
      eexists _, _. split; [reflexivity|]. cbn [isValid issues].
      assert (Hiff :
        (isEmpty (orphanIssues (recordId <$> List.filter
                     (isOrphan foreignKeyFieldId (rows pt)) (rows ct))) = true
         ∧ orphanIssues (recordId <$> List.filter
              (isOrphan foreignKeyFieldId (rows pt)) (rows ct)) = [])
        ↔ ∃ pt0 ct0, Some pt = Some pt0 ∧ Some ct = Some ct0
            ∧ (∃ f, f ∈ fields ct0 ∧ fieldId f = foreignKeyFieldId
                    ∧ kind (fieldSpec f) = "reference")
            ∧ (∀ r v, r ∈ rows ct0 → values r !! foreignKeyFieldId = Some v
                      → ∃ p, p ∈ rows pt0 ∧ recordId p = v)).
      { split.
        - intros [_ Hnil]. apply orphanIssues_nil in Hnil.
          pose proof (proj1 (no_orphans _ _ _) Hnil) as Hrows.
          by exists pt, ct.
        - intros (pt0 & ct0 & [= <-] & [= <-] & _ & Hrows).
          pose proof (proj2 (no_orphans _ _ _) Hrows) as Hnil.
          by rewrite Hnil. }
      split; [exact Hiff|]. intros Hnot.
      destruct (orphanIssues _) eqn:Ho; [|done].
      exfalso. apply Hnot, Hiff. done.
    + eexists _, _. split; [reflexivity|]. cbn [isValid issues].
      split; [|done]. split; [intros [? _]; done|].
      intros (pt0 & ct0 & _ & [= <-] & Hf & _).
      apply fieldIssues_nil in Hf. congruence.
  - eexists _, _. split; [reflexivity|]. cbn [isValid issues].
    split; [|done]. split; [intros [? _]; done|].
    intros (pt0 & ct0 & _ & ? & _). done.
  - eexists _, _. split; [reflexivity|]. cbn [isValid issues].
    split; [|done]. split; [intros [? _]; done|].
    intros (pt0 & ct0 & ? & _). done.
  - eexists _, _. split; [reflexivity|]. cbn [isValid issues].
    split; [|done]. split; [intros [? _]; done|].
    intros (pt0 & ct0 & ? & _). done.
Qed.

End Validator.

(** ** The orchestrator on the sample application *)

Section Scenarios.
Import Orchestrator.

Lemma twoLookups_served :
  served (createAdvancedRelationship (recording storeRemote)
            "bux123" "bux124" "Company Reference"
            (Some [mkLookup 6 "Company Name"; mkLookup 7 "City"])
            ManyToMany) sampleApp
  = (Ok (mkRelationship 20 [21; 22]),
     [ fieldCreated "bux124" (referenceField "Company Reference" "bux123") 20;
       fieldCreated "bux124"
         (lookupField "bux123" 20 (mkLookup 6 "Company Name")) 21;
       fieldCreated "bux124"
         (lookupField "bux123" 20 (mkLookup 7 "City")) 22 ]).
Proof. vm_compute. reflexivity. Defined.

Lemma lookupFieldIds_assigned_in_order_witness :
  [ fieldCreated "bux124" (referenceField "Company Reference" "bux123") 20;
    fieldCreated "bux124"
      (lookupField "bux123" 20 (mkLookup 6 "Company Name")) 21;
    fieldCreated "bux124"
      (lookupField "bux123" 20 (mkLookup 7 "City")) 22 ]
  = relationshipEvents "bux123" "bux124" "Company Reference"
      [mkLookup 6 "Company Name"; mkLookup 7 "City"]
      (mkRelationship 20 [21; 22])
  ∧ length [21; 22] = 2%nat.
Proof.
  pose proof (lookupFieldIds_assigned_in_order storeRemote
                "bux123" "bux124" "Company Reference"
                (Some [mkLookup 6 "Company Name"; mkLookup 7 "City"])
                ManyToMany sampleApp _ _ twoLookups_served)
    as (_ & Hcalls & Hlen & _).
  split; [exact Hcalls | exact Hlen].
Defined.

(** After that build the contacts table of the service holds the
    reference field and the two lookup fields under the identifiers the
    result names. *)
Example relationship_fields_in_service :
  (λ t, fieldId <$> fields t)
    <$> tables (service (run (createAdvancedRelationship
                                (recording storeRemote)
                                "bux123" "bux124" "Company Reference"
                                (Some [mkLookup 6 "Company Name";
                                       mkLookup 7 "City"])
                                ManyToMany) (sampleApp, [])).2).1
        !! "bux124"
  = Some [6; 10; 20; 21; 22].
Proof. vm_compute. reflexivity. Qed.






Lemma validateRelationship_reads_only_witness :
  service (validateRelationship storeRemote "bux123" "bux124" 10
             (mkWorld sampleApp [])).2 = sampleApp.
Proof.
  exact (proj2 (validateRelationship_reads_only storeRemote
                  "bux123" "bux124" 10 (mkWorld sampleApp []))
           storeRemote_readsPreserve).
Defined.

(** A lookup on a child table the service does not know: the reference
    field creation fails and the builder rejects with the reason the
    service gave; nothing else is called. *)
Example relationship_unknown_child :
  run (createAdvancedRelationship storeRemote "bux123" "bux999" "Ref"
         (Some [mkLookup 6 "Company Name"]) OneToMany) sampleApp
  = (Failed "table not found: bux999",
     mkWorld sampleApp
       [mkEvent (CreateField "bux999" (referenceField "Ref" "bux123"))
                (RError "table not found: bux999")]).
Proof. vm_compute. reflexivity. Qed.

(** The junction table of two tables, without extra fields: a new table
    and exactly two reference fields. *)
Example junction_without_extras :
  (run (createJunctionTable storeRemote "Orders_Products" "bux123" "bux124"
          "Order" "Product" None) sampleApp).1
  = Ok (mkJunction "tbl1" 20 21 []).
Proof. vm_compute. reflexivity. Qed.

Example validate_sample :
  (run (validateRelationship storeRemote "bux123" "bux124" 10) sampleApp).1
  = Ok (mkValidation true [] []).
Proof. vm_compute. reflexivity. Qed.

Example validate_missing_parent :
  (run (validateRelationship storeRemote "bux999" "bux124" 10) sampleApp).1
  = Ok (mkValidation false ["parent table not found"] []).
Proof. vm_compute. reflexivity. Qed.

Example validate_text_field :
  (run (validateRelationship storeRemote "bux123" "bux124" 6) sampleApp).1
  = Ok (mkValidation false ["field 6 is not a reference field"] []).
Proof. vm_compute. reflexivity. Qed.

Example validate_orphan :
  (run (validateRelationship storeRemote "bux123" "bux124" 10) orphanedApp).1
  = Ok (mkValidation false ["found 1 orphaned records"] [4]).
Proof. vm_compute. reflexivity. Qed.

End Scenarios.

(** ** The guard, the flags and the validator on the inputs of the tests *)

Section Tests.
Import JS ToolGuards Payload.

Example envFlag_forms :
  Env.envFlag {[ "TEST_FLAG" := "  YES " ]} "TEST_FLAG" false = true
  ∧ Env.envFlag {[ "TEST_FLAG" := "off" ]} "TEST_FLAG" true = false
  ∧ Env.envFlag {[ "TEST_FLAG" := "maybe" ]} "TEST_FLAG" true = true
  ∧ Env.envFlag ∅ "TEST_FLAG" false = false.
Proof. vm_compute. repeat split. Qed.

Example update_record_guard :
  assertToolAllowed "quickbase_update_record"
    (VObject [("confirm", VBool true)]) true true
  = Some (ReadOnlyMode "quickbase_update_record")
  ∧ assertToolAllowed "quickbase_update_record"
      (VObject [("tableId", VString "bux123")]) false true
    = Some (ConfirmationRequired "quickbase_update_record")
  ∧ assertToolAllowed "quickbase_delete_record"
      (VObject [("tableId", VString "bux123")]) false false
    = Some (DestructiveDisabled "quickbase_delete_record").
Proof. vm_compute. repeat split. Qed.

Example delete_table_runs :
  Server.handleToolCall (λ _ _, true) false true "quickbase_delete_table"
    (VObject [("tableId", VString "bux123")])
  = Server.Invoke Server.deleteTable.
Proof. vm_compute. reflexivity. Qed.

(** Five levels of values below the payload are one too many; four
    levels, the last an empty object, pass. *)
Example five_levels :
  validateFieldPayload
    (VObject [("a", VObject [("b", VObject [("c", VObject [("d",
       VObject [("e", VNumber 1)])])])])])
  = [NestingTooDeep]
  ∧ validateFieldPayload
      (VObject [("a", VObject [("b", VObject [("c", VObject [("d",
         VObject [])])])])])
    = [].
Proof. vm_compute. split; reflexivity. Qed.

End Tests.

(** * Further properties of the guard, the handler and the validator *)

(** ** The guard *)

Section GuardModes.
Import JS ToolGuards.

(** No name of a finite disjunction of other names. *)
Ltac none_of H :=
  repeat (destruct H as [H | H]; [discriminate H|]); discriminate H.

Lemma destructive_not_confirmation s :
  s ∈ destructiveTools → s ∉ confirmationRequiredTools.
Proof.
  rewrite destructive_elem, confirmationRequired_elem. intros Hd Hc.
  repeat (destruct Hd as [-> | Hd]; [none_of Hc|]).
  subst. none_of Hc.
Qed.

(** X1. In read-only mode the guard lets through exactly the tools of the
    allowlist, whatever the destructive flag and the arguments, and
    every other tool is turned down as a read-only violation, also a
    destructive or unconfirmed one. *)
Theorem guard_readOnly_exactly_allowlist name args allowDestructive :
  (assertToolAllowed name args true allowDestructive = None
   ↔ name ∈ readOnlyAllowedTools)
  ∧ (name ∉ readOnlyAllowedTools →
     assertToolAllowed name args true allowDestructive
     = Some (ReadOnlyMode name)).
Proof.
  unfold assertToolAllowed. cbn [andb].
  destruct (decide (name ∈ readOnlyAllowedTools)) as [Hin | Hout].
  - rewrite (bool_decide_eq_true_2 _ Hin). cbn [negb].
    rewrite (bool_decide_eq_false_2 _ (allowed_not_destructive _ Hin)).
    rewrite (bool_decide_eq_false_2 _ (allowed_not_confirmation _ Hin)).
    cbn [andb]. split; [done|]. intros Hout. by destruct Hout.
  - rewrite (bool_decide_eq_false_2 _ Hout). cbn [negb].
    split; [|done]. split; [discriminate | intros Hin; by destruct Hout].
Qed.

(** X2. Loosening the configuration never turns an accepted call into a
    refused one: a call that passes the guard still passes it after
    read-only mode is left or destructive operations are enabled. *)
Theorem guard_monotone name args readOnly allowDestructive
        readOnly' allowDestructive' :
  (readOnly' = true → readOnly = true) →
  (allowDestructive = true → allowDestructive' = true) →
  assertToolAllowed name args readOnly allowDestructive = None →
  assertToolAllowed name args readOnly' allowDestructive' = None.
Proof.
  unfold assertToolAllowed. intros Hro Had.
  destruct (bool_decide (name ∈ readOnlyAllowedTools));
    destruct (bool_decide (name ∈ destructiveTools));
    destruct (bool_decide (name ∈ confirmationRequiredTools));
    destruct (confirmed args);
    destruct readOnly, allowDestructive, readOnly', allowDestructive';
    cbn [andb negb]; intros H; try discriminate H; try reflexivity;
    first [by discriminate Hro | by discriminate Had
          | by specialize (Hro eq_refl) | by specialize (Had eq_refl)].
Qed.

Lemma guard_monotone_witness :
  assertToolAllowed "quickbase_get_record"
    (VObject [("tableId", VString "bux123")]) false true = None
  ∧ assertToolAllowed "quickbase_update_record"
      (VObject [("confirm", VBool true)]) false true = None.
Proof.
  split.
  - apply (guard_monotone "quickbase_get_record"
             (VObject [("tableId", VString "bux123")]) true false false true).
    + intros H. discriminate H.
    + intros H. discriminate H.
    + vm_compute. reflexivity.
  - apply (guard_monotone "quickbase_update_record"
             (VObject [("confirm", VBool true)]) false false false true).
    + intros H. discriminate H.
    + intros H. discriminate H.
    + vm_compute. reflexivity.
Defined.

(** X3. Outside read-only mode a destructive tool passes the guard exactly
    when destructive operations are enabled; its arguments, and a
    confirmation among them, play no part. *)
Theorem destructive_needs_flag_only name args allowDestructive :
  name ∈ destructiveTools →
  (assertToolAllowed name args false allowDestructive = None
   ↔ allowDestructive = true)
  ∧ (allowDestructive = false →
     assertToolAllowed name args false allowDestructive
     = Some (DestructiveDisabled name)).
Proof.
  intros Hd. unfold assertToolAllowed. cbn [andb].
  rewrite (bool_decide_eq_true_2 _ Hd).
  rewrite (bool_decide_eq_false_2 _ (destructive_not_confirmation _ Hd)).
  destruct allowDestructive; cbn [andb negb];
    (split; [split; congruence | congruence]).
Qed.

Lemma destructive_needs_flag_only_witness :
  assertToolAllowed "quickbase_delete_field" (VObject []) false false
  = Some (DestructiveDisabled "quickbase_delete_field").
Proof.
  refine (proj2 (destructive_needs_flag_only "quickbase_delete_field"
                   (VObject []) false _) eq_refl).
  apply destructive_elem. right; left; reflexivity.
Defined.

End GuardModes.

(** ** What a tool call can reach *)

Section Reach.
Import JS ToolGuards Server Classes.

(** One goal per case of the switch, with the tool name, the schema and
    the client method of the case. *)
Ltac each_case Hsel :=
  apply selectCase_In in Hsel; unfold cases in Hsel; simpl in Hsel;
  repeat (destruct Hsel as [Hsel | Hsel]; [injection Hsel as <- <- <-|]);
  [..|destruct Hsel].

Lemma confirmed_or_empty args :
  confirmed match args with
            | VNull | VUndefined => VObject []
            | _ => args
            end = confirmed args.
Proof. by destruct args. Qed.

Lemma parseArgs_confirmed otherMembersOk schema args :
  hasConfirmLiteral schema = true →
  parseArgs otherMembersOk schema args = true →
  confirmed args = true.
Proof.
  intros Hlit. unfold parseArgs. rewrite Hlit, confirmed_or_empty.
  by destruct (confirmed args).
Qed.

(** X4. In read-only mode a tool call reaches none but the reading client
    methods: application and table information, field lists, record
    queries and searches, relationships and reports. *)
Theorem readOnly_reaches_reads_only
        otherMembersOk allowDestructive name args m :
  handleToolCall otherMembersOk true allowDestructive name args = Invoke m →
  readMethod m = true.
Proof.
  intros Hrun.
  apply handleToolCall_Invoke in Hrun as (Hguard & schema & Hsel & _).
  unfold assertToolAllowed in Hguard. cbn [andb] in Hguard.
  each_case Hsel; first [reflexivity | vm_compute in Hguard; discriminate].
Qed.

Lemma readOnly_reaches_reads_only_witness :
  readMethod getRecord = true.
Proof.
  apply (readOnly_reaches_reads_only (λ _ _, true) false
           "quickbase_get_record"
           (VObject [("tableId", VString "bux123");
                     ("recordId", VNumber 1)])).
  vm_compute. reflexivity.
Defined.

(** X5. While destructive operations are disabled no tool call reaches the
    deletion of a table, a field or a record, in either mode and whatever
    the arguments. *)
Theorem delete_needs_allowDestructive
        otherMembersOk readOnly name args m :
  handleToolCall otherMembersOk readOnly false name args = Invoke m →
  deleteMethod m = false.
Proof.
  intros Hrun.
  apply handleToolCall_Invoke in Hrun as (Hguard & schema & Hsel & _).
  unfold assertToolAllowed in Hguard.
  each_case Hsel;
    first [reflexivity
          | destruct readOnly; vm_compute in Hguard; discriminate].
Qed.

Lemma delete_needs_allowDestructive_witness :
  deleteMethod getTableInfo = false.
Proof.
  apply (delete_needs_allowDestructive (λ _ _, true) false
           "quickbase_get_table_info"
           (VObject [("tableId", VString "bux123")])).
  vm_compute. reflexivity.
Defined.

(** X6. A tool call reaches a creating or updating client method (tables,
    fields, records, relationships, webhooks, notifications) only with
    [confirm = true] among its arguments. *)
Theorem write_needs_confirm
        otherMembersOk readOnly allowDestructive name args m :
  handleToolCall otherMembersOk readOnly allowDestructive name args
  = Invoke m →
  writeMethod m = true →
  confirmed args = true.
Proof.
  intros Hrun Hwrite.
  apply handleToolCall_Invoke in Hrun as (_ & schema & Hsel & Hparse).
  each_case Hsel; try discriminate Hwrite;
    specialize (Hparse _ eq_refl);
    by apply parseArgs_confirmed in Hparse.
Qed.

Lemma write_needs_confirm_witness :
  confirmed (VObject [("confirm", VBool true);
                      ("tableId", VString "bux123");
                      ("fields", VObject [("6", VString "x")])]) = true.
Proof.
  apply (write_needs_confirm (λ _ _, true) false false
           "quickbase_create_record"
           (VObject [("confirm", VBool true);
                     ("tableId", VString "bux123");
                     ("fields", VObject [("6", VString "x")])])
           createRecord).
  - vm_compute. reflexivity.
  - reflexivity.
Defined.

Lemma guarded_tool_has_case name :
  name ∈ readOnlyAllowedTools ∨ name ∈ destructiveTools
  ∨ name ∈ confirmationRequiredTools →
  selectCase name cases ≠ None.
Proof.
  rewrite readOnlyAllowed_elem, destructive_elem, confirmationRequired_elem.
  intros H.
  repeat match goal with
         | Hor : _ ∨ _ |- _ => destruct Hor as [Hor | Hor]
         end; subst; vm_compute; intros [=].
Qed.

(** X7. A name that is no case of the switch is never dispatched: in
    read-only mode the guard turns it down as a read-only violation,
    otherwise the switch answers that the tool is unknown. *)
Theorem unknown_tool_refused
        otherMembersOk readOnly allowDestructive name args :
  selectCase name cases = None →
  handleToolCall otherMembersOk readOnly allowDestructive name args
  = Rejected (if readOnly then GuardRefusal (ReadOnlyMode name)
              else UnknownTool name).
Proof.
  intros Hsel.
  assert (Hnone : ¬ (name ∈ readOnlyAllowedTools ∨ name ∈ destructiveTools
                     ∨ name ∈ confirmationRequiredTools))
    by (intros H; by apply guarded_tool_has_case in H).
  unfold handleToolCall, assertToolAllowed.
  rewrite !bool_decide_eq_false_2 by tauto. rewrite Hsel.
  by destruct readOnly.
Qed.

Lemma unknown_tool_refused_witness :
  handleToolCall (λ _ _, true) false true "quickbase_drop_app" VUndefined
  = Rejected (UnknownTool "quickbase_drop_app").
Proof.
  apply (unknown_tool_refused (λ _ _, true) false true "quickbase_drop_app").
  vm_compute. reflexivity.
Defined.

End Reach.

(** ** The advertised tools against the switch *)

Section Catalogue.
Import JS ToolGuards Server Tools.

Lemma selectCase_None name l :
  selectCase name l = None ↔ ¬ In name (map fst l).
Proof.
  induction l as [|[n c] l IH]; simpl; [tauto|].
  destruct (String.eqb name n) eqn:Hn.
  - apply String.eqb_eq in Hn. split; [discriminate|]. intros H.
    destruct H. by left.
  - apply String.eqb_neq in Hn. rewrite IH. split.
    + intros H [Heq | Hin]; [by subst | by apply H].
    + intros H Hin. apply H. by right.
Qed.

(** X8. The tools the server advertises are the cases of its switch, in the
    same order: an advertised tool is never answered as unknown and every
    case can be discovered.  The tools named by the three guard sets are
    among them. *)
Theorem advertised_tools_are_handled :
  map fst quickbaseTools = map fst cases
  ∧ (∀ name, advertised name ↔ selectCase name cases ≠ None)
  ∧ (∀ name, name ∈ readOnlyAllowedTools ∨ name ∈ destructiveTools
             ∨ name ∈ confirmationRequiredTools → advertised name).
Proof.
  assert (Hnames : map fst quickbaseTools = map fst cases)
    by (vm_compute; reflexivity).
  assert (Hiff : ∀ name, advertised name ↔ selectCase name cases ≠ None).
  { intros name. unfold advertised. rewrite Hnames, selectCase_None.
    split; [tauto|]. intros H.
    destruct (in_dec string_dec name (map fst cases)); [done|].
    by destruct H. }
  split; [exact Hnames|]. split; [exact Hiff|].
  intros name H. apply Hiff.
  rewrite readOnlyAllowed_elem, destructive_elem, confirmationRequired_elem
    in H.
  repeat match goal with
         | Hor : _ ∨ _ |- _ => destruct Hor as [Hor | Hor]
         end; subst; vm_compute; intros [=].
Qed.

(** X9. A tool advertises [confirm] among its required arguments exactly when
    the schema its arguments are parsed with demands [confirm = true]. *)
Theorem advertised_confirm_agrees name required schema m :
  requiredOf name quickbaseTools = Some required →
  selectCase name cases = Some (schema, m) →
  existsb (String.eqb "confirm") required
  = match schema with
    | Some sch => hasConfirmLiteral sch
    | None => false
    end.
Proof.
  intros Hreq Hsel.
  apply selectCase_In in Hsel. unfold cases in Hsel. simpl in Hsel.
  repeat (destruct Hsel as [Hsel | Hsel];
          [injection Hsel as <- <- <-; vm_compute in Hreq;
           injection Hreq as <-; reflexivity|]).
  destruct Hsel.
Qed.

Lemma advertised_confirm_agrees_witness :
  existsb (String.eqb "confirm")
    ["confirm"; "junctionTableName"; "table1Id"; "table2Id";
     "table1FieldLabel"; "table2FieldLabel"]
  = hasConfirmLiteral CreateJunctionTableSchema.
Proof.
  apply (advertised_confirm_agrees "quickbase_create_junction_table" _
           (Some CreateJunctionTableSchema) createJunctionTable).
  - vm_compute. reflexivity.
  - vm_compute. reflexivity.
Defined.

End Catalogue.

(** ** From the environment to the handler *)

Section StartupFlags.
Import JS ToolGuards Server Classes Startup.

Lemma envFlag_default_false env name :
  Env.envFlag env name false = true →
  ∃ raw, env !! name = Some raw ∧ Env.normalize raw ∈ Env.TRUE_VALUES.
Proof.
  intros Hflag. destruct (env !! name) as [raw|] eqn:Hraw.
  - exists raw. split; [done|]. rewrite (envFlag_set env name raw false Hraw)
      in Hflag.
    repeat case_bool_decide; done.
  - unfold Env.envFlag in Hflag. rewrite Hraw in Hflag. discriminate.
Qed.

Lemma construct_flags env srv :
  construct env = inr srv →
  allowDestructive srv = Env.envFlag env "QB_ALLOW_DESTRUCTIVE" false
  ∧ readOnly srv = Env.envFlag env "QB_READONLY" false.
Proof.
  unfold construct. cbv zeta. case_match; [discriminate|].
  by intros [= <-].
Qed.

(** X10. On a server started from an environment, a tool call reaches the
    deletion of a table, a field or a record only if QB_ALLOW_DESTRUCTIVE
    is set to a value that trims and lowercases to 1, true, yes, y or
    on: unset, empty or anything else leaves deletions disabled. *)
Theorem startup_delete_needs_variable env srv otherMembersOk name args m :
  construct env = inr srv →
  callTool otherMembersOk srv name args = Invoke m →
  deleteMethod m = true →
  ∃ raw, env !! "QB_ALLOW_DESTRUCTIVE" = Some raw
         ∧ Env.normalize raw ∈ Env.TRUE_VALUES.
Proof.
  intros Hsrv Hrun Hdel. apply construct_flags in Hsrv as [Had _].
  apply envFlag_default_false. rewrite <- Had.
  unfold callTool in Hrun.
  apply handleToolCall_Invoke in Hrun as (Hguard & schema & Hsel & _).
  destruct (allowDestructive srv); [reflexivity|]. exfalso.
  unfold assertToolAllowed in Hguard.
  apply selectCase_In in Hsel. unfold cases in Hsel. simpl in Hsel.
  repeat (destruct Hsel as [Hsel | Hsel];
          [injection Hsel as <- <- <-;
           first [discriminate Hdel
                 | destruct (readOnly srv); vm_compute in Hguard;
                   discriminate Hguard]|]).
  destruct Hsel.
Qed.

(** X11. On a server started with QB_READONLY set to a value that trims and
    lowercases to 1, true, yes, y or on, a tool call reaches reading
    client methods only; with QB_READONLY unset no call is turned down as
    a read-only violation. *)
Theorem startup_readOnly_variable env srv otherMembersOk name args :
  construct env = inr srv →
  (∀ raw m, env !! "QB_READONLY" = Some raw →
            Env.normalize raw ∈ Env.TRUE_VALUES →
            callTool otherMembersOk srv name args = Invoke m →
            readMethod m = true)
  ∧ (env !! "QB_READONLY" = None →
     ∀ tool, callTool otherMembersOk srv name args
             ≠ Rejected (GuardRefusal (ReadOnlyMode tool))).
Proof.
  intros Hsrv. apply construct_flags in Hsrv as [_ Hro]. split.
  - intros raw m Hraw Htrue Hrun.
    rewrite (envFlag_set env _ raw false Hraw) in Hro.
    rewrite (bool_decide_eq_true_2 _ Htrue) in Hro.
    unfold callTool in Hrun. rewrite Hro in Hrun.
    apply handleToolCall_Invoke in Hrun as (Hguard & schema & Hsel & _).
    unfold assertToolAllowed in Hguard. cbn [andb] in Hguard.
    apply selectCase_In in Hsel. unfold cases in Hsel. simpl in Hsel.
    repeat (destruct Hsel as [Hsel | Hsel];
            [injection Hsel as <- <- <-;
             first [reflexivity
                   | vm_compute in Hguard; discriminate Hguard]|]).
    destruct Hsel.
  - intros Hunset tool. unfold Env.envFlag in Hro. rewrite Hunset in Hro.
    unfold callTool, handleToolCall, assertToolAllowed. rewrite Hro.
    cbn [andb].
    repeat case_match; congruence.
Qed.

Lemma startup_delete_needs_variable_witness :
  ∃ raw, destructiveEnv !! "QB_ALLOW_DESTRUCTIVE" = Some raw
         ∧ Env.normalize raw ∈ Env.TRUE_VALUES.
Proof.
  apply (startup_delete_needs_variable destructiveEnv (mkServer true false)
           (λ _ _, true) "quickbase_delete_table"
           (VObject [("tableId", VString "bux123")]) deleteTable).
  - vm_compute. reflexivity.
  - vm_compute. reflexivity.
  - reflexivity.
Defined.

Lemma startup_readOnly_variable_witness :
  readMethod getTableFields = true.
Proof.
  assert (Hsrv : construct readOnlyEnv = inr (mkServer false true))
    by (vm_compute; reflexivity).
  apply (proj1 (startup_readOnly_variable readOnlyEnv _ (λ _ _, true)
                  "quickbase_get_table_fields"
                  (VObject [("tableId", VString "bux123")]) Hsrv)
           "on" getTableFields).
  - vm_compute. reflexivity.
  - apply true_values_elem. do 4 right. reflexivity.
  - vm_compute. reflexivity.
Defined.

End StartupFlags.

(** ** Environment flags: what does not matter in a value *)

Section EnvNormal.
Import Env Classes.

Lemma append_cons c s t : (String c s ++ t)%string = String c (s ++ t)%string.
Proof. reflexivity. Qed.

Lemma append_nil_l t : ("" ++ t)%string = t.
Proof. reflexivity. Qed.

Lemma append_nil_r s : (s ++ "")%string = s.
Proof. induction s as [|c s IH]; [done|]. by rewrite append_cons, IH. Qed.

Lemma append_assoc s t u : ((s ++ t) ++ u)%string = (s ++ (t ++ u))%string.
Proof.
  induction s as [|c s IH]; [done|]. by rewrite !append_cons, IH.
Qed.

Lemma rev_app_append s t : String.rev_app s t = (String.rev s ++ t)%string.
Proof.
  unfold String.rev. revert t.
  induction s as [|c s IH]; intros t; simpl; [done|].
  rewrite (IH (String c t)), (IH (String c "")), append_assoc. done.
Qed.

Lemma rev_append s t :
  String.rev (s ++ t) = (String.rev t ++ String.rev s)%string.
Proof.
  induction s as [|c s IH].
  - by rewrite append_nil_l, append_nil_r.
  - rewrite append_cons. unfold String.rev at 1 3. simpl.
    rewrite !rev_app_append, IH, append_assoc. done.
Qed.

Lemma blank_append s t : blank (s ++ t) = blank s && blank t.
Proof.
  induction s as [|c s IH]; [done|].
  rewrite append_cons. simpl. rewrite IH. by rewrite andb_assoc.
Qed.

Lemma blank_rev s : blank (String.rev s) = blank s.
Proof.
  induction s as [|c s IH]; [done|].
  unfold String.rev. simpl. rewrite rev_app_append, blank_append, IH.
  simpl. rewrite andb_true_r. apply andb_comm.
Qed.

Lemma trimStart_blank s : blank s = true → trimStart s = "".
Proof.
  induction s as [|c s IH]; simpl; [done|].
  destruct (isWhiteSpace c); [exact IH | discriminate].
Qed.

(** White space in front goes; white space behind stays behind what is
    left, unless nothing is. *)
Lemma trimStart_append s t :
  trimStart (s ++ t)
  = if blank s then trimStart t else (trimStart s ++ t)%string.
Proof.
  induction s as [|c s IH]; [done|].
  rewrite append_cons. simpl.
  destruct (isWhiteSpace c); simpl; [exact IH | done].
Qed.

Lemma trimEnd_blank_append s t :
  blank t = true → trimEnd (s ++ t) = trimEnd s.
Proof.
  intros Ht. unfold trimEnd.
  rewrite rev_append, trimStart_append, blank_rev, Ht. done.
Qed.

Lemma trim_padding before raw after :
  blank before = true → blank after = true →
  trim (before ++ raw ++ after) = trim raw.
Proof.
  intros Hb Ha. unfold trim.
  rewrite trimStart_append, Hb, trimStart_append.
  destruct (blank raw) eqn:Hraw.
  - by rewrite (trimStart_blank after Ha), (trimStart_blank raw Hraw).
  - by apply trimEnd_blank_append.
Qed.

Lemma lowerChar_whiteSpace c : isWhiteSpace (lowerChar c) = isWhiteSpace c.
Proof. destruct c as [[] [] [] [] [] [] [] []]; reflexivity. Qed.

Lemma toLowerCase_append s t :
  toLowerCase (s ++ t) = (toLowerCase s ++ toLowerCase t)%string.
Proof.
  induction s as [|c s IH]; [done|].
  rewrite append_cons. simpl. by rewrite IH.
Qed.

Lemma toLowerCase_rev s : toLowerCase (String.rev s) = String.rev (toLowerCase s).
Proof.
  induction s as [|c s IH]; [done|].
  unfold String.rev. simpl.
  rewrite !rev_app_append, toLowerCase_append, IH. done.
Qed.

Lemma toLowerCase_trimStart s :
  toLowerCase (trimStart s) = trimStart (toLowerCase s).
Proof.
  induction s as [|c s IH]; [done|]. simpl.
  rewrite lowerChar_whiteSpace. by destruct (isWhiteSpace c).
Qed.

Lemma toLowerCase_trim s : toLowerCase (trim s) = trim (toLowerCase s).
Proof.
  unfold trim, trimEnd.
  by rewrite toLowerCase_rev, toLowerCase_trimStart, toLowerCase_rev,
    toLowerCase_trimStart.
Qed.

(** X12. White space around the value of a flag variable does not matter:
    padding a value on either side with blanks, tabs or line ends leaves
    the flag as it is. *)
Theorem envFlag_ignores_padding env name before raw after d :
  blank before = true → blank after = true →
  envFlag (<[name := (before ++ raw ++ after)%string]> env) name d
  = envFlag (<[name := raw]> env) name d.
Proof.
  intros Hb Ha. unfold envFlag, normalize.
  rewrite !lookup_insert_eq. by rewrite trim_padding.
Qed.

Lemma envFlag_ignores_padding_witness :
  envFlag {[ "QB_READONLY" := ("  " ++ "true" ++ String "010" "")%string ]}
    "QB_READONLY" false
  = envFlag {[ "QB_READONLY" := "true" ]} "QB_READONLY" false.
Proof.
  apply (envFlag_ignores_padding ∅ "QB_READONLY" "  " "true"
           (String "010" "") false);
    reflexivity.
Defined.

(** X13. Letter case does not matter: two values that differ in the case of
    their letters only set the flag alike. *)
Theorem envFlag_ignores_case env name raw raw' d :
  toLowerCase raw = toLowerCase raw' →
  envFlag (<[name := raw]> env) name d = envFlag (<[name := raw']> env) name d.
Proof.
  intros Hcase. unfold envFlag, normalize.
  rewrite !lookup_insert_eq. by rewrite !toLowerCase_trim, Hcase.
Qed.

Lemma envFlag_ignores_case_witness :
  envFlag {[ "QB_READONLY" := "Yes" ]} "QB_READONLY" false
  = envFlag {[ "QB_READONLY" := "yES" ]} "QB_READONLY" false.
Proof.
  apply (envFlag_ignores_case ∅ "QB_READONLY" "Yes" "yES" false).
  reflexivity.
Defined.

End EnvNormal.

(** ** The request shape validator: what an issue means *)

Section Issues.
Import JS Payload Classes.

Lemma justifiedBy_mono (deep many deep' many' : Prop) ns ns' i :
  (deep → deep') → (many → many') → (∀ n, In n ns → In n ns') →
  justifiedBy deep many ns i → justifiedBy deep' many' ns' i.
Proof.
  intros Hd Hm Hn. destruct i; simpl; auto.
  - intros (x & Hin & Hlt). exists x. auto.
  - intros (x & Hin & Hlt). exists x. auto.
  - intros (x & Hin & Hlt). exists x. auto.
  - intros (x & k & v & Hin & Hkv & Hlt). exists x, k, v. auto.
Qed.

Lemma nestingDepth_child {A} (f : A → Z) (l : list A) c :
  In c l → 1 + f c <= fold_right (λ x acc, Z.max (1 + f x) acc) 0 l.
Proof.
  induction l as [|x l IH]; simpl; [done|].
  intros [-> | Hin]; [lia|]. specialize (IH Hin). lia.
Qed.

Lemma nestingDepth_nonneg v : 0 <= nestingDepth v.
Proof.
  destruct v as [ | | s | n | b | items | props | t]; simpl; try lia.
  - induction items as [|x l IH]; simpl; lia.
  - induction props as [|x l IH]; simpl; lia.
Qed.

Lemma visitItems_justified d items :
  Forall visit_justified_at items →
  ∀ st, ∃ more,
    issues (visitItems d items st) = issues st ++ more
    ∧ Forall (justifiedBy
                (Exists (λ c, maxDepth < d + 1 + nestingDepth c) items)
                (maxTotalKeys < totalKeys st + keyCountAll items)
                (concat (map nodes items))) more
    ∧ totalKeys st <= totalKeys (visitItems d items st)
      <= totalKeys st + keyCountAll items.
Proof.
  induction 1 as [|x xs Hx _ IH]; intros st;
    cbn [visitItems keyCountAll fold_right map concat].
  - exists []. rewrite app_nil_r. split; [done|]. split; [constructor | lia].
  - fold (keyCountAll xs).
    pose proof (keyCount_nonneg x). pose proof (keyCountAll_nonneg xs).
    destruct (Hx (d + 1) st) as (m1 & Hm1 & Hj1 & Hk1).
    destruct (IH (visit x (d + 1) st)) as (m2 & Hm2 & Hj2 & Hk2).
    exists (m1 ++ m2). rewrite Hm2, Hm1, <- app_assoc.
    split; [done|]. split; [|lia].
    apply Forall_app. split.
    + eapply Forall_impl; [exact Hj1|]. intros i.
      apply justifiedBy_mono.
      * intros Hd. apply Exists_cons_hd. lia.
      * lia.
      * intros n Hn. apply in_or_app. by left.
    + eapply Forall_impl; [exact Hj2|]. intros i.
      apply justifiedBy_mono.
      * intros Hd. by apply Exists_cons_tl.
      * lia.
      * intros n Hn. apply in_or_app. by right.
Qed.

Lemma visitProps_justified d (props : list (string * Value)) :
  Forall (λ kv, visit_justified_at (snd kv)) props →
  ∀ st, ∃ more,
    issues (visitProps d props st) = issues st ++ more
    ∧ Forall (λ i,
        (i = KeyTooLong
         ∧ ∃ k v, In (k, v) props ∧ maxKeyLength < strlen k)
        ∨ justifiedBy
            (Exists (λ kv, maxDepth < d + 1 + nestingDepth (snd kv)) props)
            (maxTotalKeys < totalKeys st + keyCountAll (map snd props))
            (concat (map (λ kv, nodes (snd kv)) props)) i) more
    ∧ totalKeys st <= totalKeys (visitProps d props st)
      <= totalKeys st + keyCountAll (map snd props).
Proof.
  induction 1 as [|[k x] xs Hx _ IH]; intros st;
    cbn [visitProps keyCountAll fold_right map concat fst snd].
  - exists []. rewrite app_nil_r. split; [done|]. split; [constructor | lia].
  - fold (keyCountAll (map snd xs)).
    pose proof (keyCount_nonneg x).
    pose proof (keyCountAll_nonneg (map snd xs)).
    destruct (Z.ltb_spec maxKeyLength (strlen k)) as [Hlong | Hshort].
    { exists [KeyTooLong]. split; [done|]. split; [|simpl; lia].
      constructor; [|constructor]. left. split; [done|].
      exists k, x. split; [by left | done]. }
    simpl in Hx.
    destruct (Hx (d + 1) st) as (m1 & Hm1 & Hj1 & Hk1).
    destruct (IH (visit x (d + 1) st)) as (m2 & Hm2 & Hj2 & Hk2).
    exists (m1 ++ m2). rewrite Hm2, Hm1, <- app_assoc.
    split; [done|]. split; [|lia].
    apply Forall_app. split.
    + eapply Forall_impl; [exact Hj1|]. intros i Hi. right.
      revert Hi. apply justifiedBy_mono.
      * intros Hd. apply Exists_cons_hd. simpl. lia.
      * lia.
      * intros n Hn. apply in_or_app. by left.
    + eapply Forall_impl; [exact Hj2|].
      intros i [(-> & k' & v' & Hin & Hlt) | Hi].
      * left. split; [done|]. exists k', v'. split; [by right | done].
      * right. revert Hi. apply justifiedBy_mono.
        -- intros Hd. by apply Exists_cons_tl.
        -- lia.
        -- intros n Hn. apply in_or_app. by right.
Qed.

(** The visit stops with the one issue [i], or goes through without. *)
Ltac one_issue i :=
  exists [i]; split; [reflexivity|]; split;
  [constructor; [|constructor] | simpl; lia].
Ltac no_issue :=
  exists []; split; [by rewrite app_nil_r|]; split; [constructor | lia].

Lemma visit_justified v : visit_justified_at v.
Proof.
  induction v as [ | | s | n | b | items IH | props IH | t]
    using Value_nested_ind; intros d st.
  1-2, 4-5:
    cbn [visit]; change (keyCount _) with 0;
    destruct (Z.ltb_spec maxDepth d);
    [one_issue NestingTooDeep; simpl; lia | no_issue].
  - cbn [visit]. change (keyCount (VString s)) with 0.
    destruct (Z.ltb_spec maxDepth d);
      [one_issue NestingTooDeep; simpl; lia|].
    destruct (Z.ltb_spec maxStringLength (strlen s)); [|no_issue].
    one_issue StringTooLong. exists s. split; [by left | done].
  - rewrite visit_array, keyCount_array.
    pose proof (keyCountAll_nonneg items).
    pose proof (nestingDepth_nonneg (VArray items)).
    destruct (Z.ltb_spec maxDepth d);
      [one_issue NestingTooDeep; cbn [justifiedBy]; lia|].
    destruct (Z.ltb_spec maxArrayLength (lenZ items)).
    { one_issue ArrayTooLarge. exists items. split; [by left | done]. }
    destruct (visitItems_justified d items IH st) as (more & Hm & Hj & Hk).
    exists more. split; [done|]. split; [|done].
    eapply Forall_impl; [exact Hj|]. intros i.
    apply justifiedBy_mono.
    + intros Hex. apply Exists_exists in Hex as (c & Hc & Hd).
      apply list_elem_of_In in Hc.
      pose proof (nestingDepth_child nestingDepth items c Hc).
      cbn [nestingDepth]. lia.
    + done.
    + intros n Hn. cbn [nodes]. by right.
  - rewrite visit_object, keyCount_object. cbv zeta.
    pose proof (keyCountAll_nonneg (map snd props)).
    pose proof (nestingDepth_nonneg (VObject props)).
    assert (0 <= lenZ props) by (unfold lenZ; lia).
    destruct (Z.ltb_spec maxDepth d);
      [one_issue NestingTooDeep; cbn [justifiedBy]; lia|].
    destruct (Z.ltb_spec maxKeysPerObject (lenZ props)).
    { one_issue TooManyKeys. exists props. split; [by left | done]. }
    cbn [totalKeys].
    destruct (Z.ltb_spec maxTotalKeys (totalKeys st + lenZ props));
      [one_issue TooManyKeysOverall; cbn [justifiedBy]; lia|].
    destruct (visitProps_justified d props IH
                (mkVisit (totalKeys st + lenZ props) (issues st)))
      as (more & Hm & Hj & Hk).
    simpl in Hm, Hk. exists more. split; [done|]. split; [|lia].
    eapply Forall_impl; [exact Hj|].
    intros i [(-> & k & v & Hin & Hlt) | Hi].
    + exists props, k, v. split; [by left | done].
    + revert Hi. apply justifiedBy_mono.
      * intros Hex. apply Exists_exists in Hex as (c & Hc & Hd).
        apply list_elem_of_In in Hc.
        pose proof (nestingDepth_child (λ kv : string * Value,
                                          nestingDepth (snd kv)) props c Hc)
          as Hchild.
        cbv beta in Hchild, Hd. cbn [nestingDepth]. lia.
      * simpl. lia.
      * intros n Hn. cbn [nodes]. by right.
  - cbn [visit]. change (keyCount (VOther t)) with 0.
    destruct (Z.ltb_spec maxDepth d);
      [one_issue NestingTooDeep; simpl; lia|].
    one_issue (UnsupportedType t). by left.
Qed.

(** X14. Every issue the validator raises is justified by the payload: the
    depth issue by a value nested deeper than 4, the overall key issue by
    more than 2000 keys in all objects, and each other issue by a value of
    the payload that breaks the limit the issue names (an unsupported type
    is reported with its own type name). *)
Theorem issues_are_justified (payload : Value) :
  Forall (justified payload) (validateFieldPayload payload).
Proof.
  unfold validateFieldPayload, justified.
  destruct (visit_justified payload 0 (mkVisit 0 [])) as (more & Hm & Hj & _).
  rewrite Hm. simpl. simpl in Hj.
  eapply Forall_impl; [exact Hj|]. intros i. by apply justifiedBy_mono.
Qed.

End Issues.

(** ** The request shape validator: parts of an accepted payload *)

Section Parts.
Import JS Payload Classes.

Lemma keyCount_child c items : In c items → keyCount c <= keyCountAll items.
Proof.
  induction items as [|x l IH]; simpl; [done|].
  pose proof (keyCount_nonneg x). pose proof (keyCountAll_nonneg l).
  intros [-> | Hin]; [lia|]. specialize (IH Hin). lia.
Qed.

Lemma part_of v : part_at v.
Proof.
  induction v as [ | | s | z | b | items IH | props IH | t]
    using Value_nested_ind; intros n Hn.
  1-5, 8: destruct Hn as [<- | []]; repeat split; (lia || done).
  - cbn [nodes] in Hn. destruct Hn as [<- | Hn];
      [repeat split; (lia || done)|].
    apply in_concat in Hn as (ns & Hns & Hn).
    apply in_map_iff in Hns as (c & <- & Hc).
    rewrite Forall_forall in IH.
    destruct (IH c (proj2 (list_elem_of_In _ _) Hc) n Hn) as (Hd & Hk & Hsub).
    pose proof (nestingDepth_child nestingDepth items c Hc).
    pose proof (keyCount_child c items Hc).
    rewrite keyCount_array. cbn [nestingDepth]. repeat split; [lia | lia |].
    intros x Hx. cbn [nodes]. right.
    apply in_concat. exists (nodes c). split; [by apply in_map | auto].
  - cbn [nodes] in Hn. destruct Hn as [<- | Hn];
      [repeat split; (lia || done)|].
    apply in_concat in Hn as (ns & Hns & Hn).
    apply in_map_iff in Hns as ([k c] & <- & Hc).
    rewrite Forall_forall in IH.
    destruct (IH (k, c) (proj2 (list_elem_of_In _ _) Hc) n Hn)
      as (Hd & Hk & Hsub).
    pose proof (nestingDepth_child (λ kv : string * Value,
                                      nestingDepth (snd kv)) props (k, c) Hc)
      as Hchild.
    pose proof (keyCount_child c (map snd props)
                  (in_map snd props (k, c) Hc)).
    assert (0 <= lenZ props) by (unfold lenZ; lia).
    cbv beta in Hchild. simpl in Hd, Hk, Hsub, Hchild.
    rewrite keyCount_object. cbn [nestingDepth]. repeat split; [lia | lia |].
    intros x Hx. cbn [nodes]. right.
    apply in_concat. exists (nodes c). split; [|auto].
    apply in_map_iff. exists (k, c). done.
Qed.

(** X15. Every value inside an accepted payload is an accepted payload of its
    own: an item of an array, the value of a property, at any depth. *)
Theorem accepted_payload_parts (payload part : Value) :
  validateFieldPayload payload = [] →
  In part (nodes payload) →
  validateFieldPayload part = [].
Proof.
  rewrite !validate_clean_iff. intros (Hd & Hk & Hall) Hin.
  destruct (part_of payload part Hin) as (Hd' & Hk' & Hsub).
  repeat split; [lia | lia |].
  rewrite Forall_forall in Hall |- *. intros x Hx.
  apply Hall. apply list_elem_of_In, Hsub. by apply list_elem_of_In.
Qed.

Lemma accepted_payload_parts_witness :
  validateFieldPayload (VArray [VString "Option 1"; VString "Option 2"]) = [].
Proof.
  apply (accepted_payload_parts
           (VObject [("4", VString "John");
                     ("7", VArray [VString "Option 1"; VString "Option 2"])])).
  - vm_compute. reflexivity.
  - simpl. tauto.
Defined.



End Parts.
